(** * geomloss: the epsilon-scaling annealing schedule and the dual scaling rule

    A shallow embedding of

    - [geomloss/ot/abstract_solvers/annealing.py], function
      [annealing_parameters], and
    - [geomloss/backends/torch.py], class [UnbalancedWeight].

    Python floats are interpreted as real numbers (the ideal semantics that
    "equal within floating tolerance" refers to), Python ints as [Z], [None]-able
    arguments as [option], exceptions as the left summand of a result type.
    The real-number reading of [np.log], [np.exp], [np.geomspace] and [**]
    is the intended one on the documented domain [blur > 0] (and
    [reach > 0] when a reach is given); the theorems that depend on it carry
    these hypotheses. *)

From Stdlib Require Import String.
From Stdlib Require Import Reals Lra Lia ZArith List Bool.
From Stdlib Require Import Sorted.
Import ListNotations.

Local Open Scope R_scope.

(** ** Exceptions and the error monad *)

(** The four [ValueError]s of [annealing_parameters] carry different
    messages; the tag records which [raise] statement produced the error. *)
Inductive ValueErrorMsg : Type :=
| NIterShouldBePositive        (* "The number of iterations should be >= 1." *)
| ScalingShouldBeInUnitRange   (* "The scaling factor should be in (0,1]." *)
| PleaseSpecifyNIterOrScaling  (* "Please specify a number of iterations ..." *)
| ConstantScalingNeedsNIter    (* "If n_iter is not specified, the scaling ..." *)
| ScheduleSteeperThanScales.   (* "The annealing schedule for the descent is steeper ..." *)

Inductive exn : Type :=
| ValueError (msg : ValueErrorMsg)
| NotImplementedError
| UnboundLocalError (name : string)
| IndexError
| TypeError.

Inductive result (A : Type) : Type :=
| OK (a : A)
| Raise (e : exn).

Arguments OK {A} a.
Arguments Raise {A} e.

Definition bind {A B : Type} (m : result A) (f : A -> result B) : result B :=
  match m with
  | OK a => f a
  | Raise e => Raise e
  end.

Notation "x <- m ;; k" := (bind m (fun x => k))
  (at level 61, m at next level, right associativity).
Notation "m ;;; k" := (bind m (fun _ => k))
  (at level 61, right associativity).

(** [if cond: raise e] *)
Definition raise_if (cond : bool) (e : exn) : result unit :=
  if cond then Raise e else OK tt.

(** ** Comparisons of floats, as booleans *)

Definition Rltb (x y : R) : bool := if Rlt_dec x y then true else false.
Definition Rleb (x y : R) : bool := if Rle_dec x y then true else false.
Definition Rgtb (x y : R) : bool := Rltb y x.
Definition Req_b (x y : R) : bool := if Req_dec_T x y then true else false.

(** ** The numpy functions used by the schedule *)

Module np.

(** [np.log], [np.exp] and [np.floor] on the reals. *)
Definition log (x : R) : R := ln x.
Definition exp (x : R) : R := Rtrigo_def.exp x.
Definition floor (x : R) : Z := Zfloor x.

(** [np.arange(n)]: the integers [0, 1, ..., n-1] (empty when [n <= 0]). *)
Definition arange (n : Z) : list Z :=
  map Z.of_nat (seq 0 (Z.to_nat n)).

(** [np.maximum(xs, m)], elementwise. *)
Definition maximum (xs : list R) (m : R) : list R :=
  map (fun x => Rmax x m) xs.

(** [np.geomspace(start, stop, num)] with [endpoint=True]: [num] samples
    evenly spaced on a log scale, [start * (stop/start) ** (i/(num-1))],
    whose first and last entries are [start] and [stop]. *)
Definition geomspace (start stop : R) (num : Z) : list R :=
  map (fun i => exp (log start + IZR i / IZR (num - 1) * (log stop - log start)))
      (arange num).

End np.

(** ** The data model *)

(** Keyword arguments of [annealing_parameters]. *)
Record Config : Type := mkConfig {
  diameter : R;
  p : Z;
  blur : R;
  reach : option R;
  n_iter : option Z;
  scaling : option R;
  scales : option (list R)
}.

(** Modelled from the spec: the named tuple [DescentParameters] is imported
    from [geomloss/ot/typing.py], which is not part of the sources at hand; its
    five fields are the keyword arguments of the constructor call that ends
    [annealing_parameters] and the fields listed in the data model of the
    specification. *)
Record DescentParameters : Type := mkDescentParameters {
  dp_diameter : R;
  dp_jumps : list Z;
  dp_eps_list : list R;
  dp_blur_list : list R;
  dp_rho_list : list (option R)
}.

(** [b ** p] for a float [b] and an int [p]. *)
Definition pow_float (b : R) (e : Z) : R := powerRZ b e.

(** ** annealing_parameters, step by step *)

(** Lines 126-140: the three argument checks. *)
Definition check_arguments (c : Config) : result unit :=
  raise_if (match n_iter c with Some n => (n <=? 0)%Z | None => false end)
           (ValueError NIterShouldBePositive) ;;;
  raise_if (match scaling c with
            | Some s => Rleb s 0 || Rgtb s 1
            | None => false
            end)
           (ValueError ScalingShouldBeInUnitRange) ;;;
  raise_if (match n_iter c, scaling c with
            | None, None => true
            | _, _ => false
            end)
           (ValueError PleaseSpecifyNIterOrScaling).

(** Line 143: [diameter = max(diameter, blur)]. *)
Definition effective_diameter (c : Config) : R := Rmax (diameter c) (blur c).

(** [scaling == 1], which is [False] when [scaling] is [None]. *)
Definition scaling_is_one (c : Config) : bool :=
  match scaling c with
  | Some s => Req_b s 1
  | None => false
  end.

(** Lines 146-158: the number of iterations, given or derived.  The branch
    [scaling = None] of the derivation is excluded by the third argument
    check; Python would fail in [np.log(None)].  The quotient is taken in
    exact arithmetic: the float quotient of the source is this number up to
    rounding, and its floor can be one less or one more where the exact
    quotient is (nearly) an integer. *)
Definition effective_n_iter (c : Config) : result Z :=
  match n_iter c with
  | Some n => OK n
  | None =>
      if scaling_is_one c then Raise (ValueError ConstantScalingNeedsNIter)
      else match scaling c with
           | Some s =>
               let x := (np.log (blur c) - np.log (effective_diameter c)) / np.log s in
               OK (np.floor x + 2)%Z
           | None => Raise TypeError
           end
  end.

(** Lines 166-187: the three policies for [blur_list]. *)
Definition make_blur_list (c : Config) (n : Z) : list R :=
  match scaling c with
  | Some s =>
      if Req_b s 1 then repeat (blur c) (Z.to_nat n)
      else
        let l0 := np.arange n in
        let l1 := map (fun i => np.log (effective_diameter c) + IZR i * np.log s) l0 in
        let l2 := np.maximum l1 (np.log (blur c)) in
        map np.exp l2
  | None =>
      if (n =? 1)%Z then [blur c]
      else np.geomspace (effective_diameter c) (blur c) n
  end.

(** Line 190. *)
Definition make_eps_list (c : Config) (blur_list : list R) : list R :=
  map (fun b => pow_float b (p c)) blur_list.

(** Lines 193-197. *)
Definition make_rho (c : Config) : option R :=
  match reach c with
  | None => None
  | Some r => Some (pow_float r (p c))
  end.

Definition make_rho_list (c : Config) (blur_list : list R) : list (option R) :=
  repeat (make_rho c) (length blur_list).

(** Lines 208-225: the loop over [enumerate(blur_list[1:])].

    The state of the loop is the scale pointer [k] and the local variable
    [jumps]; [jumps = None] says that the name is not bound, in which case
    [jumps.append(i)] raises [UnboundLocalError].  The result [(k, jumps)] is
    the state when the loop is left, through [break] or by exhaustion. *)
Fixpoint scan_jumps (scales_ : list R) (blurs : list R) (i : Z)
         (k : nat) (jumps : option (list Z)) : result (nat * option (list Z)) :=
  match blurs with
  | [] => OK (k, jumps)
  | b :: rest =>
      match nth_error scales_ k with
      | None => Raise IndexError
      | Some s_k =>
          if Rltb b s_k then
            match jumps with
            | None => Raise (UnboundLocalError "jumps")
            | Some js =>
                let jumps' := Some (js ++ [i]) in
                let k' := S k in
                if (length scales_ <=? k')%nat then OK (k', jumps')
                else
                  match nth_error scales_ k' with
                  | None => Raise IndexError
                  | Some s_k' =>
                      if Rltb b s_k' then Raise (ValueError ScheduleSteeperThanScales)
                      else scan_jumps scales_ rest (i + 1)%Z k' jumps'
                  end
            end
          else scan_jumps scales_ rest (i + 1)%Z k jumps
      end
  end.

(** Reading the local variable [jumps]. *)
Definition read_jumps (jumps : option (list Z)) : result (list Z) :=
  match jumps with
  | Some js => OK js
  | None => Raise (UnboundLocalError "jumps")
  end.

(** Lines 202-228.  Only the single-scale branch executes [jumps = []]; the
    multiscale branch starts its loop with the name [jumps] still unbound. *)
Definition single_scale (c : Config) : bool :=
  match scales c with
  | None => true
  | Some sc => (length sc <? 2)%nat
  end.

Definition make_jumps (c : Config) (blur_list : list R) : result (list Z) :=
  match scales c with
  | None => OK []
  | Some sc =>
      if (length sc <? 2)%nat then OK []
      else
        st <- scan_jumps sc (tl blur_list) 0%Z 0%nat None ;;
        raise_if (fst st <? length sc)%nat NotImplementedError ;;;
        read_jumps (snd st)
  end.

(** The whole function. *)
Definition annealing_parameters (c : Config) : result DescentParameters :=
  check_arguments c ;;;
  n <- effective_n_iter c ;;
  let blur_list := make_blur_list c n in
  let eps_list := make_eps_list c blur_list in
  let rho_list := make_rho_list c blur_list in
  jumps <- make_jumps c blur_list ;;
  OK {| dp_diameter := effective_diameter c;
        dp_jumps := jumps;
        dp_eps_list := eps_list;
        dp_blur_list := blur_list;
        dp_rho_list := rho_list |}.

(** ** UnbalancedWeight *)

Module UnbalancedWeight.

(** [self.eps, self.rho = eps, rho] *)
Record t : Type := init { eps : R; rho : R }.

Definition forward (self : t) (x : R) : R := (rho self + eps self / 2) * x.

Definition backward (self : t) (g : R) : R := (rho self + eps self) * g.

End UnbalancedWeight.

(** ** Vocabulary of the properties *)

(** The four conditions under which the schedule is rejected before it is
    built. *)
Definition n_iter_not_positive (c : Config) : Prop :=
  exists n, n_iter c = Some n /\ (n <= 0)%Z.

Definition scaling_out_of_range (c : Config) : Prop :=
  exists s, scaling c = Some s /\ (s <= 0 \/ 1 < s).

Definition schedule_unspecified (c : Config) : Prop :=
  n_iter c = None /\ scaling c = None.

Definition constant_scaling_without_n_iter (c : Config) : Prop :=
  n_iter c = None /\ scaling c = Some 1.

Definition invalid_arguments (c : Config) : Prop :=
  n_iter_not_positive c \/ scaling_out_of_range c \/
  schedule_unspecified c \/ constant_scaling_without_n_iter c.

(** The quotient whose floor gives the derived number of iterations. *)
Definition descent_ratio (c : Config) (s : R) : R :=
  (ln (blur c) - ln (effective_diameter c)) / ln s.

(** [l] is non-strictly decreasing. *)
Definition non_increasing (l : list R) : Prop :=
  forall (i j : nat) (x y : R),
    (i <= j)%nat -> nth_error l i = Some x -> nth_error l j = Some y -> y <= x.

(** [l[-1]], when [l] is not empty. *)
Definition last_entry {A : Type} (l : list A) : option A :=
  match l with
  | [] => None
  | _ => nth_error l (length l - 1)
  end.

(** Entry [i] under the policy "both [n_iter] and [scaling] are known". *)
Definition ramp_entry (c : Config) (s : R) (i : Z) : R :=
  np.exp (Rmax (np.log (effective_diameter c) + IZR i * np.log s) (np.log (blur c))).

(** Entry [i] of [np.geomspace(diameter, blur, n)]. *)
Definition geom_entry (c : Config) (n : Z) (i : Z) : R :=
  np.exp (np.log (effective_diameter c)
          + IZR i / IZR (n - 1) * (np.log (blur c) - np.log (effective_diameter c))).

(** The plan that is returned when the scan for jumps succeeds. *)
Definition descent_of (c : Config) (n : Z) (jumps : list Z) : DescentParameters :=
  let blur_list := make_blur_list c n in
  {| dp_diameter := effective_diameter c;
     dp_jumps := jumps;
     dp_eps_list := make_eps_list c blur_list;
     dp_blur_list := blur_list;
     dp_rho_list := make_rho_list c blur_list |}.

(** The configuration of the comment at lines 160-163 and of the
    specification's concrete case: [diameter=1, blur=0.01, scaling=0.1, p=2],
    with the given [scales]. *)
Definition cfg_tenfold (sc : option (list R)) : Config :=
  {| diameter := 1; p := 2; blur := 1/100; reach := None;
     n_iter := None; scaling := Some (1/10); scales := sc |}.

(** Two iterations at ratio one half, far above the target blur. *)
Definition cfg_short : Config :=
  {| diameter := 1; p := 2; blur := 1/100; reach := None;
     n_iter := Some 2%Z; scaling := Some (1/2); scales := None |}.

(** Plain Sinkhorn ([scaling=1]) with a reach, with the given [scales]. *)
Definition cfg_constant (sc : option (list R)) : Config :=
  {| diameter := 1; p := 2; blur := 2; reach := Some 3;
     n_iter := Some 3%Z; scaling := Some 1; scales := sc |}.

(** The plans returned for [cfg_tenfold None], [cfg_short] and
    [cfg_constant None]. *)
Definition plan_tenfold : DescentParameters :=
  {| dp_diameter := 1;
     dp_jumps := [];
     dp_eps_list := [1; 1/100; 1/10000; 1/10000];
     dp_blur_list := [1; 1/10; 1/100; 1/100];
     dp_rho_list := [None; None; None; None] |}.

Definition plan_short : DescentParameters :=
  {| dp_diameter := 1;
     dp_jumps := [];
     dp_eps_list := [1; 1/4];
     dp_blur_list := [1; 1/2];
     dp_rho_list := [None; None] |}.

Definition plan_constant : DescentParameters :=
  {| dp_diameter := 2;
     dp_jumps := [];
     dp_eps_list := [4; 4; 4];
     dp_blur_list := [2; 2; 2];
     dp_rho_list := [Some 9; Some 9; Some 9] |}.

(** The domain on which the docstring defines the function: [blur > 0], and
    [reach > 0] when a reach is given. *)
Definition documented_domain (c : Config) : Prop :=
  0 < blur c /\ (forall r, reach c = Some r -> 0 < r).

(** Neither [n_iter] nor [scaling] is given. *)
Definition cfg_unspecified : Config :=
  {| diameter := 1; p := 2; blur := 1; reach := None;
     n_iter := None; scaling := None; scales := None |}.

(** ** max_diameter *)

(** The tensor operations of [max_diameter].  A [(D,)] tensor is the list of
    its [D] entries, an [(N, D)] tensor the list of its [N] rows; [None]
    stands for a call that raises. *)
Module torch.

Definition Vector : Type := list R.
Definition Matrix : Type := list Vector.

(** Entry by entry, for two tensors of the same shape. *)
Fixpoint zip_with (f : R -> R -> R) (u v : Vector) : Vector :=
  match u, v with
  | a :: u', b :: v' => f a b :: zip_with f u' v'
  | _, _ => []
  end.

(** [t.min(dim=0)[0]] and [t.max(dim=0)[0]]: the minimum and the maximum of
    each column; a reduction over zero rows raises. *)
Definition min_dim0 (t : Matrix) : option Vector :=
  match t with
  | [] => None
  | r :: rs => Some (fold_left (zip_with Rmin) rs r)
  end.

Definition max_dim0 (t : Matrix) : option Vector :=
  match t with
  | [] => None
  | r :: rs => Some (fold_left (zip_with Rmax) rs r)
  end.

(** [torch.stack((u, v))], which raises unless [u] and [v] have one shape. *)
Definition stack (u v : Vector) : option Matrix :=
  if (length u =? length v)%nat then Some [u; v] else None.

(** [u - v] *)
Definition sub (u v : Vector) : Vector := zip_with Rminus u v.

(** [u.norm()], the Euclidean norm. *)
Definition sum_squares (u : Vector) : R :=
  fold_right (fun a acc => a * a + acc) 0 u.

Definition norm (u : Vector) : R := sqrt (sum_squares u).

End torch.

(** Lines 18-34. *)
Definition max_diameter (x y : torch.Matrix) : option R :=
  match torch.min_dim0 x, torch.min_dim0 y with
  | Some xmin, Some ymin =>
      match torch.stack xmin ymin with
      | Some lows =>
          match torch.min_dim0 lows with
          | Some mins =>
              match torch.max_dim0 x, torch.max_dim0 y with
              | Some xmax, Some ymax =>
                  match torch.stack xmax ymax with
                  | Some highs =>
                      match torch.max_dim0 highs with
                      | Some maxs => Some (torch.norm (torch.sub maxs mins))
                      | None => None
                      end
                  | None => None
                  end
              | _, _ => None
              end
          | None => None
          end
      | None => None
      end
  | _, _ => None
  end.

(** An [(N, D)] tensor has [D] entries in every row. *)
Definition has_columns (D : nat) (t : torch.Matrix) : Prop :=
  Forall (fun r => length r = D) t.

(** The distance between two points. *)
Definition distance (a b : torch.Vector) : R := torch.norm (torch.sub a b).

(** The cloud [t] moved by the vector [v]. *)
Definition translate (v : torch.Vector) (t : torch.Matrix) : torch.Matrix :=
  map (fun r => torch.zip_with Rplus r v) t.

(** ** The tractogram example: subsampling the atlas *)

(** The part of [examples/brain_tractograms/plot_transfer_labels.py] that is
    plain Python over the cluster ranges: the check that no cluster is empty
    (lines 143-145) and the choice of the fibers to keep (lines 154-162).  A
    row [(start_j, end_j)] of [ranges_j] is a pair of integers. *)
Module tractogram.

(** [start, start + step, ...], [count] terms. *)
Fixpoint range_from (start step : Z) (count : nat) : list Z :=
  match count with
  | O => []
  | S count' => start :: range_from (start + step) step count'
  end.

(** [list(range(start, stop, step))] for [step > 0]. *)
Definition py_range (start stop step : Z) : list Z :=
  range_from start step (Z.to_nat ((stop - start + step - 1) / step)).

(** Lines 143-145: the index [j] of the first cluster with
    [start_j >= end_j], for which [ValueError] is raised, counting from [j];
    [None] when the loop ends without raising. *)
Fixpoint first_empty_cluster (ranges_j : list (Z * Z)) (j : nat) : option nat :=
  match ranges_j with
  | [] => None
  | (start_j, end_j) :: rest =>
      if (start_j >=? end_j)%Z then Some j
      else first_empty_cluster rest (S j)
  end.

(** Line 154: [subsample = 20 if True else 1]. *)
Definition subsample : Z := 20.

(** Lines 160-162. *)
Definition to_keep (ranges_j : list (Z * Z)) : list Z :=
  fold_left (fun acc r => acc ++ py_range (fst r) (snd r) subsample) ranges_j [].

End tractogram.

(** ** Vocabulary of the further properties *)

(** [c] with its [scales] replaced. *)
Definition with_scales (c : Config) (sc : option (list R)) : Config :=
  {| diameter := diameter c; p := p c; blur := blur c; reach := reach c;
     n_iter := n_iter c; scaling := scaling c; scales := sc |}.

(** [c] with its [blur] replaced. *)
Definition with_blur (c : Config) (b : R) : Config :=
  {| diameter := diameter c; p := p c; blur := b; reach := reach c;
     n_iter := n_iter c; scaling := scaling c; scales := scales c |}.

(** [c] with its [scaling] replaced. *)
Definition with_scaling (c : Config) (s : option R) : Config :=
  {| diameter := diameter c; p := p c; blur := blur c; reach := reach c;
     n_iter := n_iter c; scaling := s; scales := scales c |}.

(** The ratio between successive entries of [np.geomspace(diameter, blur, n)]. *)
Definition geom_ratio (c : Config) (n : Z) : R :=
  exp ((ln (blur c) - ln (effective_diameter c)) / IZR (n - 1)).

(** A configuration with [n_iter] but no [scaling]:
    [diameter=10, blur=0.1, n_iter=3, p=2, reach=5]. *)
Definition cfg_geom : Config :=
  {| diameter := 10; p := 2; blur := 1/10; reach := Some 5;
     n_iter := Some 3%Z; scaling := None; scales := None |}.

(** ** Basic facts: comparisons and the error monad *)

Lemma Rltb_true (x y : R) : Rltb x y = true <-> x < y.
Proof. unfold Rltb; destruct (Rlt_dec x y); split; intros; congruence || lra. Qed.

Lemma Rltb_false (x y : R) : Rltb x y = false <-> ~ x < y.
Proof. unfold Rltb; destruct (Rlt_dec x y); split; intros; congruence || tauto. Qed.

Lemma Rleb_true (x y : R) : Rleb x y = true <-> x <= y.
Proof. unfold Rleb; destruct (Rle_dec x y); split; intros; congruence || lra. Qed.

Lemma Rleb_false (x y : R) : Rleb x y = false <-> y < x.
Proof. unfold Rleb; destruct (Rle_dec x y); split; intros; congruence || lra. Qed.

Lemma Rgtb_true (x y : R) : Rgtb x y = true <-> x > y.
Proof. unfold Rgtb; rewrite Rltb_true; lra. Qed.

Lemma Rgtb_false (x y : R) : Rgtb x y = false <-> x <= y.
Proof. unfold Rgtb; rewrite Rltb_false; lra. Qed.

Lemma Req_b_true (x y : R) : Req_b x y = true <-> x = y.
Proof. unfold Req_b; destruct (Req_dec_T x y); split; intros; congruence. Qed.

Lemma Req_b_false (x y : R) : Req_b x y = false <-> x <> y.
Proof. unfold Req_b; destruct (Req_dec_T x y); split; intros; congruence. Qed.

Lemma bind_OK {A B : Type} (m : result A) (f : A -> result B) (b : B) :
  bind m f = OK b <-> exists a, m = OK a /\ f a = OK b.
Proof.
  destruct m as [a|e]; simpl; split.
  - eauto.
  - intros [a' [Ha Hf]]. now inversion Ha.
  - discriminate.
  - intros [a' [Ha _]]. discriminate.
Qed.

Lemma raise_if_OK (cond : bool) (e : exn) (u : unit) :
  raise_if cond e = OK u <-> cond = false.
Proof. destruct u, cond; simpl; split; congruence. Qed.

(** Evaluation of the float tests at given numbers. *)
Ltac float_tests :=
  repeat match goal with
  | |- context [Rltb ?x ?y] =>
      first [ replace (Rltb x y) with true by (symmetry; apply Rltb_true; lra)
            | replace (Rltb x y) with false by (symmetry; apply Rltb_false; lra) ]
  | |- context [Rleb ?x ?y] =>
      first [ replace (Rleb x y) with true by (symmetry; apply Rleb_true; lra)
            | replace (Rleb x y) with false by (symmetry; apply Rleb_false; lra) ]
  | |- context [Req_b ?x ?y] =>
      first [ replace (Req_b x y) with true by (symmetry; apply Req_b_true; lra)
            | replace (Req_b x y) with false by (symmetry; apply Req_b_false; lra) ]
  end.

(** Equality of two lists of the same length, entry by entry. *)
Ltac entrywise tac :=
  repeat (apply (f_equal2 (@cons _)); [tac|]); try reflexivity.

(** ** The argument checks *)

Lemma check_arguments_OK (c : Config) :
  check_arguments c = OK tt <->
  ~ n_iter_not_positive c /\ ~ scaling_out_of_range c /\ ~ schedule_unspecified c.
Proof.
  unfold check_arguments, n_iter_not_positive, scaling_out_of_range,
    schedule_unspecified, raise_if.
  destruct (n_iter c) as [n|], (scaling c) as [s|]; simpl.
  - destruct (Z.leb_spec n 0) as [Hn|Hn]; simpl.
    + split; [discriminate|]. intros [A _]. exfalso. apply A. eauto.
    + destruct (Rleb s 0) eqn:E0; simpl.
      * apply Rleb_true in E0. split; [discriminate|].
        intros [_ [A _]]. exfalso. apply A. eauto.
      * apply Rleb_false in E0. destruct (Rgtb s 1) eqn:E1; simpl.
        -- apply Rgtb_true in E1. split; [discriminate|].
           intros [_ [A _]]. exfalso. apply A. exists s. split; [reflexivity|lra].
        -- apply Rgtb_false in E1. split; [|reflexivity]. intros _.
           repeat split.
           ++ intros [x [Hx Hy]]. inversion Hx. lia.
           ++ intros [x [Hx Hy]]. inversion Hx. lra.
           ++ intros [Hx _]. discriminate.
  - destruct (Z.leb_spec n 0) as [Hn|Hn]; simpl.
    + split; [discriminate|]. intros [A _]. exfalso. apply A. eauto.
    + split; [|reflexivity]. intros _. repeat split.
      * intros [x [Hx Hy]]. inversion Hx. lia.
      * intros [x [Hx Hy]]. discriminate.
      * intros [Hx _]. discriminate.
  - destruct (Rleb s 0) eqn:E0; simpl.
    + apply Rleb_true in E0. split; [discriminate|].
      intros [_ [A _]]. exfalso. apply A. eauto.
    + apply Rleb_false in E0. destruct (Rgtb s 1) eqn:E1; simpl.
      * apply Rgtb_true in E1. split; [discriminate|].
        intros [_ [A _]]. exfalso. apply A. exists s. split; [reflexivity|lra].
      * apply Rgtb_false in E1. split; [|reflexivity]. intros _.
        repeat split.
        -- intros [x [Hx Hy]]. discriminate.
        -- intros [x [Hx Hy]]. inversion Hx. lra.
        -- intros [_ Hx]. discriminate.
  - split; [discriminate|]. intros [_ [_ A]]. exfalso. apply A. now split.
Qed.

Lemma check_arguments_Raise (c : Config) (e : exn) :
  check_arguments c = Raise e ->
  n_iter_not_positive c \/ scaling_out_of_range c \/ schedule_unspecified c.
Proof.
  unfold check_arguments, n_iter_not_positive, scaling_out_of_range,
    schedule_unspecified, raise_if.
  destruct (n_iter c) as [n|], (scaling c) as [s|]; simpl.
  - destruct (Z.leb_spec n 0) as [Hn|Hn]; simpl; [intros _; left; exists n; split; [reflexivity|lia]|].
    destruct (Rleb s 0) eqn:E0; simpl.
    + apply Rleb_true in E0. intros _. right; left. exists s. split; [reflexivity|lra].
    + destruct (Rgtb s 1) eqn:E1; simpl; [|discriminate].
      apply Rgtb_true in E1. intros _. right; left. exists s. split; [reflexivity|lra].
  - destruct (Z.leb_spec n 0) as [Hn|Hn]; simpl; [intros _; left; exists n; split; [reflexivity|lia]|discriminate].
  - destruct (Rleb s 0) eqn:E0; simpl.
    + apply Rleb_true in E0. intros _. right; left. exists s. split; [reflexivity|lra].
    + destruct (Rgtb s 1) eqn:E1; simpl; [|discriminate].
      apply Rgtb_true in E1. intros _. right; left. exists s. split; [reflexivity|lra].
  - auto.
Qed.

Lemma check_arguments_result (c : Config) :
  check_arguments c = OK tt \/
  exists m, check_arguments c = Raise (ValueError m) /\
            m <> ScheduleSteeperThanScales /\ m <> ConstantScalingNeedsNIter.
Proof.
  unfold check_arguments, raise_if.
  destruct (n_iter c) as [n|], (scaling c) as [s|]; simpl;
    repeat match goal with
    | |- context [if ?b then _ else _] => destruct b; simpl
    end;
    first [ left; reflexivity | right; eexists; repeat split; discriminate ].
Qed.

(** ** The number of iterations *)

Lemma ln_scaling_neg (s : R) : 0 < s -> s < 1 -> ln s < 0.
Proof. intros H0 H1. rewrite <- ln_1. now apply ln_increasing. Qed.

Lemma ln_effective_diameter (c : Config) :
  0 < blur c -> ln (blur c) <= ln (effective_diameter c).
Proof.
  intros Hb. unfold effective_diameter.
  destruct (Rle_lt_or_eq_dec _ _ (Rmax_r (diameter c) (blur c))) as [Hlt|Heq].
  - left. now apply ln_increasing.
  - rewrite <- Heq. lra.
Qed.

Lemma effective_diameter_pos (c : Config) : 0 < blur c -> 0 < effective_diameter c.
Proof.
  intros Hb. unfold effective_diameter.
  pose proof (Rmax_r (diameter c) (blur c)). lra.
Qed.

Lemma descent_ratio_nonneg (c : Config) (s : R) :
  0 < blur c -> 0 < s -> s < 1 -> 0 <= descent_ratio c s.
Proof.
  intros Hb H0 H1. unfold descent_ratio.
  pose proof (ln_effective_diameter c Hb) as Hd.
  pose proof (ln_scaling_neg s H0 H1) as Hs.
  replace ((ln (blur c) - ln (effective_diameter c)) / ln s)
    with ((ln (effective_diameter c) - ln (blur c)) * / (- ln s)).
  - apply Rmult_le_pos; [lra|]. left. apply Rinv_0_lt_compat. lra.
  - field. lra.
Qed.

Lemma effective_n_iter_positive (c : Config) (n : Z) :
  0 < blur c ->
  check_arguments c = OK tt ->
  effective_n_iter c = OK n ->
  (1 <= n)%Z.
Proof.
  intros Hb Hc Hn. apply check_arguments_OK in Hc as [H1 [H2 H3]].
  unfold effective_n_iter, scaling_is_one in Hn.
  destruct (n_iter c) as [m|] eqn:Em.
  - inversion Hn; subst.
    destruct (Z.le_gt_cases n 0); [|lia].
    exfalso. apply H1. exists n. now split.
  - destruct (scaling c) as [s|] eqn:Es.
    + destruct (Req_b s 1) eqn:E1; [discriminate|].
      inversion Hn; subst. apply Req_b_false in E1.
      assert (0 < s /\ s < 1) as [Hs0 Hs1].
      { destruct (Rle_dec s 0); [exfalso; apply H2; exists s; split; [easy|lra]|].
        destruct (Rlt_dec 1 s); [exfalso; apply H2; exists s; split; [easy|lra]|].
        lra. }
      pose proof (descent_ratio_nonneg c s Hb Hs0 Hs1) as Hr.
      unfold np.floor, np.log. fold (descent_ratio c s).
      pose proof (Zfloor_lub 0 (descent_ratio c s) Hr). lia.
    + discriminate.
Qed.

(** ** Lists built over [np.arange] *)

Lemma length_arange (n : Z) : length (np.arange n) = Z.to_nat n.
Proof. unfold np.arange. now rewrite length_map, length_seq. Qed.

Lemma nth_error_arange (n : Z) (i : nat) :
  (i < Z.to_nat n)%nat -> nth_error (np.arange n) i = Some (Z.of_nat i).
Proof.
  intros Hi. unfold np.arange.
  rewrite nth_error_map, nth_error_seq.
  destruct (Nat.ltb_spec i (Z.to_nat n)); [reflexivity|lia].
Qed.

Lemma nth_error_map_arange {A : Type} (f : Z -> A) (n : Z) (i : nat) (x : A) :
  nth_error (map f (np.arange n)) i = Some x <->
  (i < Z.to_nat n)%nat /\ x = f (Z.of_nat i).
Proof.
  split.
  - intros H.
    assert (Hi : (i < Z.to_nat n)%nat).
    { rewrite <- (length_arange n), <- (length_map f).
      apply nth_error_Some. congruence. }
    split; [exact Hi|].
    rewrite nth_error_map, (nth_error_arange n i Hi) in H. simpl in H. congruence.
  - intros [Hi ->]. now rewrite nth_error_map, (nth_error_arange n i Hi).
Qed.

Lemma map_arange_non_increasing (f : Z -> R) (n : Z) :
  (forall i j : Z, (0 <= i <= j)%Z -> (j < n)%Z -> f j <= f i) ->
  non_increasing (map f (np.arange n)).
Proof.
  intros Hf i j x y Hij Hx Hy.
  apply nth_error_map_arange in Hx as [Hi ->].
  apply nth_error_map_arange in Hy as [Hj ->].
  apply Hf; lia.
Qed.

Lemma map_arange_Forall (P : R -> Prop) (f : Z -> R) (n : Z) :
  (forall i : Z, (0 <= i < n)%Z -> P (f i)) ->
  Forall P (map f (np.arange n)).
Proof.
  intros Hf. apply Forall_forall. intros x Hx.
  apply In_nth_error in Hx as [i Hi].
  apply nth_error_map_arange in Hi as [Hi ->].
  apply Hf. lia.
Qed.

Lemma last_entry_map_arange {A : Type} (f : Z -> A) (n : Z) :
  (1 <= n)%Z -> last_entry (map f (np.arange n)) = Some (f (n - 1)%Z).
Proof.
  intros Hn. unfold last_entry.
  destruct (map f (np.arange n)) eqn:E.
  - apply (f_equal (@length A)) in E.
    rewrite length_map, length_arange in E. simpl in E. lia.
  - rewrite <- E. apply nth_error_map_arange.
    rewrite length_map, length_arange. split; [lia|]. f_equal. lia.
Qed.

Lemma repeat_non_increasing (x : R) (n : nat) : non_increasing (repeat x n).
Proof.
  intros i j a b _ Ha Hb.
  apply nth_error_In, repeat_spec in Ha.
  apply nth_error_In, repeat_spec in Hb. lra.
Qed.

Lemma last_entry_repeat {A : Type} (x : A) (n : nat) :
  (1 <= n)%nat -> last_entry (repeat x n) = Some x.
Proof.
  intros Hn. unfold last_entry. destruct (repeat x n) eqn:E.
  - destruct n; [lia|discriminate].
  - rewrite <- E, repeat_length, nth_error_repeat; [reflexivity|lia].
Qed.

(** ** The three policies for [blur_list] *)

Lemma make_blur_list_ramp (c : Config) (s : R) (n : Z) :
  scaling c = Some s -> s <> 1 ->
  make_blur_list c n = map (ramp_entry c s) (np.arange n).
Proof.
  intros Hs H1. unfold make_blur_list. rewrite Hs.
  apply Req_b_false in H1. rewrite H1.
  unfold np.maximum. now rewrite !map_map.
Qed.

Lemma make_blur_list_constant (c : Config) (n : Z) :
  scaling c = Some 1 -> make_blur_list c n = repeat (blur c) (Z.to_nat n).
Proof.
  intros Hs. unfold make_blur_list. rewrite Hs.
  now rewrite (proj2 (Req_b_true 1 1) eq_refl).
Qed.

Lemma make_blur_list_geom (c : Config) (n : Z) :
  scaling c = None -> n <> 1%Z ->
  make_blur_list c n = map (geom_entry c n) (np.arange n).
Proof.
  intros Hs Hn. unfold make_blur_list. rewrite Hs.
  apply Z.eqb_neq in Hn. now rewrite Hn.
Qed.

Lemma make_blur_list_single (c : Config) :
  scaling c = None -> make_blur_list c 1 = [blur c].
Proof. intros Hs. unfold make_blur_list. now rewrite Hs. Qed.

Lemma length_make_blur_list (c : Config) (n : Z) :
  length (make_blur_list c n) = Z.to_nat n.
Proof.
  unfold make_blur_list.
  destruct (scaling c) as [s|].
  - destruct (Req_b s 1).
    + apply repeat_length.
    + unfold np.maximum. now rewrite !length_map, length_arange.
  - destruct (Z.eqb_spec n 1) as [->|Hn]; [reflexivity|].
    unfold np.geomspace. now rewrite length_map, length_arange.
Qed.

Section BlurList.

Variable c : Config.
Hypothesis blur_pos : 0 < blur c.

Lemma exp_ln_blur : np.exp (np.log (blur c)) = blur c.
Proof. unfold np.exp, np.log. now apply exp_ln. Qed.

Lemma ramp_entry_ge_blur (s : R) (i : Z) : blur c <= ramp_entry c s i.
Proof.
  unfold ramp_entry. rewrite <- exp_ln_blur at 1. unfold np.exp.
  destruct (Rle_lt_or_eq_dec _ _
    (Rmax_r (np.log (effective_diameter c) + IZR i * np.log s) (np.log (blur c))))
    as [Hlt|Heq].
  - left. now apply exp_increasing.
  - rewrite <- Heq. lra.
Qed.

Lemma exp_monotone (x y : R) : x <= y -> exp x <= exp y.
Proof.
  intros [Hlt|Heq]; [left; now apply exp_increasing|rewrite Heq; lra].
Qed.

Lemma ramp_entry_antitone (s : R) (i j : Z) :
  0 < s -> s <= 1 -> (i <= j)%Z -> ramp_entry c s j <= ramp_entry c s i.
Proof.
  intros H0 H1 Hij. unfold ramp_entry, np.exp. apply exp_monotone.
  apply Rle_max_compat_r.
  assert (Hs : np.log s <= 0).
  { unfold np.log. destruct H1 as [H1|H1]; [|rewrite H1, ln_1; lra].
    left. now apply ln_scaling_neg. }
  apply IZR_le in Hij. nra.
Qed.

Lemma geom_entry_antitone (n i j : Z) :
  (0 <= i <= j)%Z -> (j < n)%Z -> geom_entry c n j <= geom_entry c n i.
Proof.
  intros Hij Hj.
  destruct (Z.eq_dec i j) as [->|Hne]; [lra|].
  unfold geom_entry, np.exp. apply exp_monotone.
  pose proof (ln_effective_diameter c blur_pos) as Hd. unfold np.log.
  assert (Hn : 0 < IZR (n - 1)) by (apply IZR_lt; lia).
  assert (Hq : IZR i / IZR (n - 1) <= IZR j / IZR (n - 1)).
  { apply Rmult_le_compat_r; [left; now apply Rinv_0_lt_compat|].
    apply IZR_le; lia. }
  generalize dependent (IZR i / IZR (n - 1)).
  generalize dependent (IZR j / IZR (n - 1)).
  intros qj qi Hq. nra.
Qed.

Lemma geom_entry_ge_blur (n i : Z) :
  (0 <= i < n)%Z -> blur c <= geom_entry c n i.
Proof.
  intros Hi. rewrite <- exp_ln_blur at 1.
  unfold geom_entry, np.exp. apply exp_monotone.
  pose proof (ln_effective_diameter c blur_pos) as Hd. unfold np.log.
  destruct (Z.eq_dec i 0) as [->|Hne].
  { unfold Rdiv. rewrite !Rmult_0_l. lra. }
  assert (Hn : 0 < IZR (n - 1)) by (apply IZR_lt; lia).
  assert (Hq : IZR i / IZR (n - 1) <= 1).
  { apply Rmult_le_reg_r with (IZR (n - 1)); [exact Hn|].
    unfold Rdiv. rewrite Rmult_assoc, Rinv_l by lra.
    rewrite Rmult_1_r, Rmult_1_l. apply IZR_le; lia. }
  generalize dependent (IZR i / IZR (n - 1)).
  intros q Hq. nra.
Qed.

Lemma geom_entry_last (n : Z) :
  (2 <= n)%Z -> geom_entry c n (n - 1) = blur c.
Proof.
  intros Hn. rewrite <- exp_ln_blur. unfold geom_entry. f_equal.
  assert (Hn' : IZR (n - 1) <> 0) by (apply not_0_IZR; lia).
  field. exact Hn'.
Qed.

(** In each policy [blur_list] is non-strictly decreasing ... *)
Lemma make_blur_list_non_increasing (n : Z) :
  (forall s, scaling c = Some s -> 0 < s <= 1) ->
  non_increasing (make_blur_list c n).
Proof.
  intros Hs. destruct (scaling c) as [s|] eqn:Es.
  - destruct (Req_dec_T s 1) as [->|H1].
    + rewrite make_blur_list_constant by assumption. apply repeat_non_increasing.
    + rewrite (make_blur_list_ramp c s n Es H1).
      apply map_arange_non_increasing. intros i j Hij _.
      destruct (Hs s eq_refl). apply ramp_entry_antitone; lra || lia.
  - destruct (Z.eq_dec n 1) as [->|Hn].
    + rewrite make_blur_list_single by assumption.
      intros [|[|i]] [|[|j]] x y _ Hx Hy; simpl in *; try discriminate.
      inversion Hx; inversion Hy; lra.
    + rewrite make_blur_list_geom by assumption.
      apply map_arange_non_increasing. intros i j Hij Hj.
      now apply geom_entry_antitone.
Qed.

(** ... and bounded from below by [blur]. *)
Lemma make_blur_list_ge_blur (n : Z) :
  Forall (fun b => blur c <= b) (make_blur_list c n).
Proof.
  destruct (scaling c) as [s|] eqn:Es.
  - destruct (Req_dec_T s 1) as [->|H1].
    + rewrite make_blur_list_constant by assumption.
      apply Forall_forall. intros x Hx. apply repeat_spec in Hx. lra.
    + rewrite (make_blur_list_ramp c s n Es H1).
      apply map_arange_Forall. intros i _. apply ramp_entry_ge_blur.
  - destruct (Z.eq_dec n 1) as [->|Hn].
    + rewrite make_blur_list_single by assumption.
      constructor; [lra|constructor].
    + rewrite make_blur_list_geom by assumption.
      apply map_arange_Forall. intros i Hi. now apply geom_entry_ge_blur.
Qed.

End BlurList.

(** ** The scan for jumps *)

(** The scan as the source runs it, with [jumps] unbound: the first blur
    value below the current scale stops it in [jumps.append]; without such a
    value the pointer [k] does not move. *)
Lemma scan_jumps_unbound (sc : list R) (s_k : R) (k : nat) :
  nth_error sc k = Some s_k ->
  forall (blurs : list R) (i : Z),
    (Exists (fun b => b < s_k) blurs ->
     scan_jumps sc blurs i k None = Raise (UnboundLocalError "jumps")) /\
    (Forall (fun b => ~ b < s_k) blurs ->
     scan_jumps sc blurs i k None = OK (k, None)).
Proof.
  intros Hk. induction blurs as [|b rest IH]; intros i; simpl.
  - split; [intros H; inversion H|reflexivity].
  - rewrite Hk. destruct (Rltb b s_k) eqn:E.
    + split; [reflexivity|].
      intros H. inversion H; subst. apply Rltb_true in E. tauto.
    + apply Rltb_false in E. split.
      * intros H. inversion H; subst; [tauto|]. now apply IH.
      * intros H. inversion H; subst. now apply IH.
Qed.

Lemma Exists_or_Forall_below (s : R) (l : list R) :
  Exists (fun b => b < s) l \/ Forall (fun b => ~ b < s) l.
Proof.
  induction l as [|b l [IH|IH]].
  - right. constructor.
  - left. now constructor 2.
  - destruct (Rlt_dec b s); [left; now constructor|right; now constructor].
Qed.

Lemma make_jumps_single_scale (c : Config) (blur_list : list R) :
  single_scale c = true -> make_jumps c blur_list = OK [].
Proof.
  unfold single_scale, make_jumps. destruct (scales c) as [sc|]; [|reflexivity].
  now intros ->.
Qed.

Lemma make_jumps_multiscale (c : Config) (sc : list R) (blur_list : list R) :
  scales c = Some sc -> (2 <= length sc)%nat ->
  (Exists (fun b => b < hd 0 sc) (tl blur_list) ->
   make_jumps c blur_list = Raise (UnboundLocalError "jumps")) /\
  (Forall (fun b => ~ b < hd 0 sc) (tl blur_list) ->
   make_jumps c blur_list = Raise NotImplementedError).
Proof.
  intros Hsc Hlen. unfold make_jumps. rewrite Hsc.
  destruct (Nat.ltb_spec (length sc) 2) as [Hlt|_]; [lia|].
  destruct sc as [|s0 sc']; [simpl in Hlen; lia|].
  destruct (scan_jumps_unbound (s0 :: sc') s0 0 eq_refl (tl blur_list) 0%Z)
    as [HE HF].
  split; intros H; simpl hd in H.
  - now rewrite (HE H).
  - rewrite (HF H). simpl. reflexivity.
Qed.

Lemma make_jumps_OK (c : Config) (blur_list : list R) (js : list Z) :
  make_jumps c blur_list = OK js -> single_scale c = true /\ js = [].
Proof.
  intros H. destruct (single_scale c) eqn:E.
  - rewrite make_jumps_single_scale in H by assumption. now inversion H.
  - exfalso. unfold single_scale in E.
    destruct (scales c) as [sc|] eqn:Esc; [|discriminate].
    apply Nat.ltb_ge in E.
    destruct (make_jumps_multiscale c sc blur_list Esc E) as [HE HF].
    destruct (Exists_or_Forall_below (hd 0 sc) (tl blur_list)) as [Hx|Hx].
    + rewrite (HE Hx) in H. discriminate.
    + rewrite (HF Hx) in H. discriminate.
Qed.

Lemma make_jumps_no_ValueError (c : Config) (blur_list : list R) (m : ValueErrorMsg) :
  make_jumps c blur_list <> Raise (ValueError m).
Proof.
  intros H. destruct (single_scale c) eqn:E.
  - rewrite make_jumps_single_scale in H by assumption. discriminate.
  - unfold single_scale in E.
    destruct (scales c) as [sc|] eqn:Esc; [|discriminate].
    apply Nat.ltb_ge in E.
    destruct (make_jumps_multiscale c sc blur_list Esc E) as [HE HF].
    destruct (Exists_or_Forall_below (hd 0 sc) (tl blur_list)) as [Hx|Hx].
    + rewrite (HE Hx) in H. discriminate.
    + rewrite (HF Hx) in H. discriminate.
Qed.

(** ** The function as a whole *)

Lemma annealing_parameters_steps (c : Config) (n : Z) :
  check_arguments c = OK tt ->
  effective_n_iter c = OK n ->
  annealing_parameters c =
  (jumps <- make_jumps c (make_blur_list c n) ;; OK (descent_of c n jumps)).
Proof.
  intros Hc Hn. unfold annealing_parameters. rewrite Hc, Hn. reflexivity.
Qed.

Lemma annealing_parameters_OK (c : Config) (d : DescentParameters) :
  annealing_parameters c = OK d ->
  exists n, check_arguments c = OK tt /\ effective_n_iter c = OK n /\
            single_scale c = true /\ d = descent_of c n [].
Proof.
  unfold annealing_parameters. intros H.
  apply bind_OK in H as [[] [Hc H]].
  apply bind_OK in H as [n [Hn H]].
  apply bind_OK in H as [js [Hj H]].
  apply make_jumps_OK in Hj as [Hs ->].
  exists n. repeat split; try assumption. now inversion H.
Qed.

Lemma effective_n_iter_OK (c : Config) :
  ~ invalid_arguments c -> exists n, effective_n_iter c = OK n.
Proof.
  intros Hv. unfold effective_n_iter, scaling_is_one.
  destruct (n_iter c) as [n|] eqn:En; [eauto|].
  destruct (scaling c) as [s|] eqn:Es.
  - destruct (Req_b s 1) eqn:E1; [|eauto].
    apply Req_b_true in E1. subst s. exfalso. apply Hv.
    right; right; right. now split.
  - exfalso. apply Hv. right; right; left. now split.
Qed.

Lemma valid_arguments_check (c : Config) :
  ~ invalid_arguments c -> check_arguments c = OK tt.
Proof.
  intros Hv. apply check_arguments_OK. unfold invalid_arguments in Hv. tauto.
Qed.

(** On valid arguments and in single-scale mode a plan is returned. *)
Lemma annealing_parameters_returns (c : Config) :
  ~ invalid_arguments c -> single_scale c = true ->
  exists n, effective_n_iter c = OK n /\
            annealing_parameters c = OK (descent_of c n []).
Proof.
  intros Hv Hs. destruct (effective_n_iter_OK c Hv) as [n Hn].
  exists n. split; [exact Hn|].
  rewrite (annealing_parameters_steps c n (valid_arguments_check c Hv) Hn).
  now rewrite make_jumps_single_scale.
Qed.

Lemma returned_implies_valid (c : Config) (d : DescentParameters) :
  annealing_parameters c = OK d -> ~ invalid_arguments c.
Proof.
  intros H. apply annealing_parameters_OK in H as [n [Hc [Hn [_ _]]]].
  apply check_arguments_OK in Hc as [H1 [H2 H3]].
  intros [A|[A|[A|[A1 A2]]]]; try tauto.
  unfold effective_n_iter, scaling_is_one in Hn. rewrite A1, A2 in Hn.
  rewrite (proj2 (Req_b_true 1 1) eq_refl) in Hn. discriminate.
Qed.

(** ** Worked configurations *)

Lemma ln_hundredth : ln (1/100) = 2 * ln (1/10).
Proof.
  replace (1/100) with ((1/10) * (1/10)) by lra.
  rewrite ln_mult by lra. lra.
Qed.

Lemma ln_tenth_neg : ln (1/10) < 0.
Proof. apply ln_scaling_neg; lra. Qed.

Lemma effective_diameter_tenfold (sc : option (list R)) :
  effective_diameter (cfg_tenfold sc) = 1.
Proof. unfold effective_diameter; simpl. apply Rmax_left. lra. Qed.

Lemma check_arguments_tenfold (sc : option (list R)) :
  check_arguments (cfg_tenfold sc) = OK tt.
Proof.
  unfold check_arguments; simpl. unfold Rgtb. float_tests. reflexivity.
Qed.

Lemma effective_n_iter_tenfold (sc : option (list R)) :
  effective_n_iter (cfg_tenfold sc) = OK 4%Z.
Proof.
  unfold effective_n_iter, scaling_is_one; simpl. float_tests.
  unfold np.log, np.floor.
  rewrite effective_diameter_tenfold, ln_1, ln_hundredth.
  replace ((2 * ln (1 / 10) - 0) / ln (1 / 10)) with 2
    by (field; pose proof ln_tenth_neg; lra).
  rewrite (Zfloor_eq 2 2) by lra. reflexivity.
Qed.

Lemma ramp_entry_above (c : Config) (s : R) (i : Z) (x : R) :
  0 < x ->
  np.log (blur c) <= np.log (effective_diameter c) + IZR i * np.log s ->
  np.log (effective_diameter c) + IZR i * np.log s = ln x ->
  ramp_entry c s i = x.
Proof.
  intros Hx Hle Heq. unfold ramp_entry. rewrite Rmax_left by exact Hle.
  rewrite Heq. unfold np.exp. now apply exp_ln.
Qed.

Lemma ramp_entry_floor (c : Config) (s : R) (i : Z) :
  0 < blur c ->
  np.log (effective_diameter c) + IZR i * np.log s <= np.log (blur c) ->
  ramp_entry c s i = blur c.
Proof.
  intros Hb Hle. unfold ramp_entry. rewrite Rmax_right by exact Hle.
  now apply exp_ln_blur.
Qed.

Lemma make_blur_list_tenfold (sc : option (list R)) :
  make_blur_list (cfg_tenfold sc) 4 = [1; 1/10; 1/100; 1/100].
Proof.
  rewrite (make_blur_list_ramp _ (1/10)) by (simpl; reflexivity || lra).
  pose proof ln_tenth_neg as Hneg.
  pose proof ln_hundredth as H100.
  simpl map.
  entrywise ltac:(first
    [ apply ramp_entry_above; unfold np.log;
      rewrite ?effective_diameter_tenfold, ?ln_1; simpl blur; lra
    | change (1/100) with (blur (cfg_tenfold sc)); apply ramp_entry_floor;
      unfold np.log; rewrite ?effective_diameter_tenfold, ?ln_1; simpl blur; lra ]).
Qed.

(** ** The final entry of [blur_list] *)

Lemma exp_nat_mult_ln (s : R) (k : nat) :
  0 < s -> exp (INR k * ln s) = s ^ k.
Proof.
  intros Hs. induction k as [|k IH].
  - simpl. rewrite Rmult_0_l. apply exp_0.
  - rewrite S_INR, Rmult_plus_distr_r, Rmult_1_l, exp_plus, IH, exp_ln by exact Hs.
    simpl. lra.
Qed.

Lemma exp_Rmax (a b : R) : exp (Rmax a b) = Rmax (exp a) (exp b).
Proof.
  destruct (Rle_dec a b) as [Hab|Hab].
  - rewrite !Rmax_right; auto. destruct Hab as [Hlt|Heq].
    + left. now apply exp_increasing.
    + rewrite Heq. lra.
  - apply Rnot_le_lt in Hab. rewrite !Rmax_left; auto; try lra.
    left. now apply exp_increasing.
Qed.

Section FinalEntry.

Variable c : Config.
Hypothesis blur_pos : 0 < blur c.

(** The ramp in closed form: [max(diameter * scaling**i, blur)]. *)
Lemma ramp_entry_closed_form (s : R) (i : Z) :
  0 < s -> (0 <= i)%Z ->
  ramp_entry c s i = Rmax (effective_diameter c * s ^ Z.to_nat i) (blur c).
Proof.
  intros Hs Hi. unfold ramp_entry, np.exp, np.log.
  rewrite exp_Rmax, exp_plus.
  rewrite !exp_ln by (assumption || now apply effective_diameter_pos).
  replace (IZR i) with (INR (Z.to_nat i))
    by (rewrite INR_IZR_INZ, Z2Nat.id; [reflexivity|exact Hi]).
  now rewrite exp_nat_mult_ln.
Qed.

(** With the derived number of iterations the ramp has reached the floor
    at its last index. *)
Lemma ramp_entry_derived_last (s : R) :
  0 < s -> s < 1 ->
  ramp_entry c s (np.floor (descent_ratio c s) + 2 - 1) = blur c.
Proof.
  intros H0 H1. apply ramp_entry_floor; [exact blur_pos|].
  pose proof (ln_scaling_neg s H0 H1) as Hs.
  pose proof (Zfloor_bound (descent_ratio c s)) as [_ Hup].
  unfold np.floor, np.log.
  replace (Zfloor (descent_ratio c s) + 2 - 1)%Z
    with (Zfloor (descent_ratio c s) + 1)%Z by lia.
  rewrite plus_IZR.
  assert (Hx : descent_ratio c s * ln s = ln (blur c) - ln (effective_diameter c)).
  { unfold descent_ratio. field. lra. }
  nra.
Qed.

Lemma last_entry_make_blur_list_constant (n : Z) :
  (1 <= n)%Z -> scaling c = Some 1 ->
  last_entry (make_blur_list c n) = Some (blur c).
Proof.
  intros Hn Hs. rewrite make_blur_list_constant by exact Hs.
  apply last_entry_repeat. lia.
Qed.

Lemma last_entry_make_blur_list_geom (n : Z) :
  (1 <= n)%Z -> scaling c = None ->
  last_entry (make_blur_list c n) = Some (blur c).
Proof.
  intros Hn Hs. destruct (Z.eq_dec n 1) as [->|Hne].
  - now rewrite make_blur_list_single.
  - rewrite make_blur_list_geom by assumption.
    rewrite last_entry_map_arange by exact Hn.
    rewrite geom_entry_last; [reflexivity|exact blur_pos|lia].
Qed.

Lemma last_entry_make_blur_list_ramp (n : Z) (s : R) :
  (1 <= n)%Z -> scaling c = Some s -> 0 < s -> s <> 1 ->
  last_entry (make_blur_list c n) =
  Some (Rmax (effective_diameter c * s ^ Z.to_nat (n - 1)) (blur c)).
Proof.
  intros Hn Hs H0 H1. rewrite (make_blur_list_ramp c s n Hs H1).
  rewrite last_entry_map_arange by exact Hn.
  rewrite ramp_entry_closed_form; [reflexivity|exact H0|lia].
Qed.

Lemma last_entry_make_blur_list_derived (n : Z) (s : R) :
  n_iter c = None -> scaling c = Some s -> 0 < s -> s < 1 ->
  effective_n_iter c = OK n ->
  last_entry (make_blur_list c n) = Some (blur c).
Proof.
  intros Hi Hs H0 H1 Hn.
  unfold effective_n_iter, scaling_is_one in Hn. rewrite Hi, Hs in Hn.
  rewrite (proj2 (Req_b_false s 1)) in Hn by lra.
  inversion Hn as [Hn']. fold (descent_ratio c s) in *.
  assert (Hge : (1 <= np.floor (descent_ratio c s) + 2)%Z).
  { pose proof (Zfloor_lub 0 _ (descent_ratio_nonneg c s blur_pos H0 H1)).
    unfold np.floor. lia. }
  rewrite (make_blur_list_ramp c s _ Hs) by lra.
  rewrite last_entry_map_arange by exact Hge.
  now rewrite ramp_entry_derived_last.
Qed.

End FinalEntry.

(** The range of a scaling that passed the argument checks. *)
Lemma checked_scaling_range (c : Config) (s : R) :
  check_arguments c = OK tt -> scaling c = Some s -> 0 < s <= 1.
Proof.
  intros Hc Hs. apply check_arguments_OK in Hc as [_ [H2 _]].
  destruct (Rle_dec s 0) as [Hle|Hle].
  - exfalso. apply H2. exists s. now split; [|left].
  - destruct (Rlt_dec 1 s) as [Hgt|Hgt].
    + exfalso. apply H2. exists s. now split; [|right].
    + lra.
Qed.

(** ** The worked configurations, evaluated *)

Lemma annealing_parameters_tenfold :
  annealing_parameters (cfg_tenfold None) = OK plan_tenfold.
Proof.
  unfold plan_tenfold.
  rewrite (annealing_parameters_steps _ 4
             (check_arguments_tenfold None) (effective_n_iter_tenfold None)).
  rewrite make_jumps_single_scale by reflexivity. simpl bind.
  unfold descent_of.
  rewrite make_blur_list_tenfold, effective_diameter_tenfold.
  unfold make_eps_list, make_rho_list, make_rho, pow_float. simpl.
  do 2 f_equal. entrywise lra.
Qed.

Lemma check_arguments_short : check_arguments cfg_short = OK tt.
Proof.
  unfold check_arguments; simpl. unfold Rgtb. float_tests. reflexivity.
Qed.

Lemma effective_n_iter_short : effective_n_iter cfg_short = OK 2%Z.
Proof. reflexivity. Qed.

Lemma effective_diameter_short : effective_diameter cfg_short = 1.
Proof. unfold effective_diameter; simpl. apply Rmax_left. lra. Qed.

Lemma make_blur_list_short : make_blur_list cfg_short 2 = [1; 1/2].
Proof.
  rewrite (make_blur_list_ramp _ (1/2)) by (simpl; reflexivity || lra).
  assert (H100 : ln (1/100) < ln (1/2)) by (apply ln_increasing; lra).
  assert (H2 : ln (1/2) < 0) by (apply ln_scaling_neg; lra).
  simpl map.
  entrywise ltac:(apply ramp_entry_above; unfold np.log;
                  rewrite ?effective_diameter_short, ?ln_1; simpl blur; lra).
Qed.

Lemma annealing_parameters_short :
  annealing_parameters cfg_short = OK plan_short.
Proof.
  unfold plan_short.
  rewrite (annealing_parameters_steps _ 2 check_arguments_short effective_n_iter_short).
  rewrite make_jumps_single_scale by reflexivity. simpl bind.
  unfold descent_of.
  rewrite make_blur_list_short, effective_diameter_short.
  unfold make_eps_list, make_rho_list, make_rho, pow_float. simpl.
  do 2 f_equal. entrywise lra.
Qed.

Lemma check_arguments_constant (sc : option (list R)) :
  check_arguments (cfg_constant sc) = OK tt.
Proof.
  unfold check_arguments; simpl. unfold Rgtb. float_tests. reflexivity.
Qed.

Lemma effective_n_iter_constant (sc : option (list R)) :
  effective_n_iter (cfg_constant sc) = OK 3%Z.
Proof. reflexivity. Qed.

Lemma make_blur_list_constant3 (sc : option (list R)) :
  make_blur_list (cfg_constant sc) 3 = [2; 2; 2].
Proof. now rewrite make_blur_list_constant. Qed.

Lemma effective_diameter_constant (sc : option (list R)) :
  effective_diameter (cfg_constant sc) = 2.
Proof. unfold effective_diameter; simpl. apply Rmax_right. lra. Qed.

Lemma annealing_parameters_constant :
  annealing_parameters (cfg_constant None) = OK plan_constant.
Proof.
  unfold plan_constant.
  rewrite (annealing_parameters_steps _ 3
             (check_arguments_constant None) (effective_n_iter_constant None)).
  rewrite make_jumps_single_scale by reflexivity. simpl bind.
  unfold descent_of.
  rewrite make_blur_list_constant3, effective_diameter_constant.
  unfold make_eps_list, make_rho_list, make_rho, pow_float. simpl.
  f_equal. f_equal; [entrywise lra|entrywise ltac:(f_equal; lra)].
Qed.

Lemma valid_arguments_constant (sc : option (list R)) :
  ~ invalid_arguments (cfg_constant sc).
Proof.
  intros [[n [Hn Hle]]|[[s [Hs Hr]]|[[Hn _]|[Hn _]]]]; simpl in *;
    try discriminate.
  - inversion Hn; subst. lia.
  - inversion Hs; subst. lra.
Qed.

(** ** Properties of the schedule *)

Lemma documented_domain_tenfold (sc : option (list R)) :
  documented_domain (cfg_tenfold sc).
Proof. split; simpl; [lra|discriminate]. Qed.

Lemma documented_domain_short : documented_domain cfg_short.
Proof. split; simpl; [lra|discriminate]. Qed.

Lemma documented_domain_constant (sc : option (list R)) :
  documented_domain (cfg_constant sc).
Proof. split; simpl; [lra|]. intros r Hr. inversion Hr. lra. Qed.

(** *** Multiscale mode *)

(** C1: in multiscale mode the docstring promises a list [jumps] of
    [len(scales) - 1] increasing indices below [n_iter].  On
    [diameter=1, blur=0.01, scaling=0.1, p=2, scales=[0.5, 0.05]], where
    [blur_list = [1, 0.1, 0.01, 0.01]], no plan is returned: the first blur
    value below [scales[0]] reaches [jumps.append(0)] while [jumps] is not
    bound, and the call ends in [UnboundLocalError].  Started from
    [jumps = []], the loop on this input would leave with two jumps, as many
    as there are scales. *)
Theorem C1_multiscale_jumps_unbound :
  annealing_parameters (cfg_tenfold (Some [1/2; 1/20])) =
    Raise (UnboundLocalError "jumps") /\
  scan_jumps [1/2; 1/20]
             (tl (make_blur_list (cfg_tenfold (Some [1/2; 1/20])) 4))
             0 0 (Some []) =
    OK (2%nat, Some [0%Z; 1%Z]).
Proof.
  split.
  - rewrite (annealing_parameters_steps _ 4
               (check_arguments_tenfold _) (effective_n_iter_tenfold _)).
    rewrite make_blur_list_tenfold.
    unfold make_jumps. simpl. float_tests. reflexivity.
  - rewrite make_blur_list_tenfold. simpl. float_tests. simpl.
    float_tests. simpl. float_tests. reflexivity.
Qed.

(** C5: on [diameter=1, blur=0.01, scaling=0.1, p=2, scales=[0.5, 0.2]],
    where [blur_list = [1, 0.1, 0.01, 0.01]], the blur value 0.1 is below
    [scales[0]] and also below [scales[1]], the situation for which the
    source has its "steeper than the granularity" [ValueError].  The call
    ends in [UnboundLocalError] instead, because [jumps] is not bound when the
    loop starts; the same loop started from [jumps = []] does raise the
    [ValueError]. *)
Theorem C5_too_steep_raises_unbound_local :
  annealing_parameters (cfg_tenfold (Some [1/2; 1/5])) =
    Raise (UnboundLocalError "jumps") /\
  scan_jumps [1/2; 1/5]
             (tl (make_blur_list (cfg_tenfold (Some [1/2; 1/5])) 4))
             0 0 (Some []) =
    Raise (ValueError ScheduleSteeperThanScales).
Proof.
  split.
  - rewrite (annealing_parameters_steps _ 4
               (check_arguments_tenfold _) (effective_n_iter_tenfold _)).
    rewrite make_blur_list_tenfold.
    unfold make_jumps. simpl. float_tests. reflexivity.
  - rewrite make_blur_list_tenfold. simpl. float_tests. simpl.
    float_tests. reflexivity.
Qed.

(** C10: with at least two scales and arguments that pass the checks (on
    the documented domain, where building the lists cannot fail), the call
    never returns a plan: if some entry of [blur_list[1:]] is below
    [scales[0]] it ends in [UnboundLocalError] for the name [jumps], and
    otherwise in [NotImplementedError]. *)
Theorem C10_multiscale_never_returns (c : Config) (sc : list R) :
  documented_domain c ->
  ~ invalid_arguments c ->
  scales c = Some sc -> (2 <= length sc)%nat ->
  (forall d, annealing_parameters c <> OK d) /\
  exists n, effective_n_iter c = OK n /\
    (Exists (fun b => b < hd 0 sc) (tl (make_blur_list c n)) ->
     annealing_parameters c = Raise (UnboundLocalError "jumps")) /\
    (Forall (fun b => ~ b < hd 0 sc) (tl (make_blur_list c n)) ->
     annealing_parameters c = Raise NotImplementedError).
Proof.
  intros _ Hv Hsc Hlen.
  pose proof (valid_arguments_check c Hv) as Hc.
  destruct (effective_n_iter_OK c Hv) as [n Hn].
  rewrite (annealing_parameters_steps c n Hc Hn).
  destruct (make_jumps_multiscale c sc (make_blur_list c n) Hsc Hlen) as [HE HF].
  split.
  - intros d.
    destruct (Exists_or_Forall_below (hd 0 sc) (tl (make_blur_list c n))) as [H|H].
    + rewrite (HE H). discriminate.
    + rewrite (HF H). discriminate.
  - exists n. split; [exact Hn|]. split.
    + intros H. now rewrite (HE H).
    + intros H. now rewrite (HF H).
Qed.

Lemma C10_multiscale_never_returns_witness :
  (forall d, annealing_parameters (cfg_constant (Some [4; 3])) <> OK d) /\
  exists n, effective_n_iter (cfg_constant (Some [4; 3])) = OK n /\
    (Exists (fun b => b < hd 0 [4; 3])
            (tl (make_blur_list (cfg_constant (Some [4; 3])) n)) ->
     annealing_parameters (cfg_constant (Some [4; 3])) =
     Raise (UnboundLocalError "jumps")) /\
    (Forall (fun b => ~ b < hd 0 [4; 3])
            (tl (make_blur_list (cfg_constant (Some [4; 3])) n)) ->
     annealing_parameters (cfg_constant (Some [4; 3])) =
     Raise NotImplementedError).
Proof.
  apply (C10_multiscale_never_returns (cfg_constant (Some [4; 3])) [4; 3]).
  - apply documented_domain_constant.
  - apply valid_arguments_constant.
  - reflexivity.
  - simpl; lia.
Defined.

(** *** Rejected arguments *)

Lemma invalid_arguments_raise (c : Config) :
  invalid_arguments c ->
  exists m, annealing_parameters c = Raise (ValueError m) /\
            m <> ScheduleSteeperThanScales.
Proof.
  intros Hinv.
  destruct (check_arguments_result c) as [Hc|[m [Hc [Hm _]]]].
  - pose proof Hc as Hc'. apply check_arguments_OK in Hc' as [H1 [H2 H3]].
    destruct Hinv as [A|[A|[A|[A1 A2]]]]; try tauto.
    exists ConstantScalingNeedsNIter. split; [|discriminate].
    unfold annealing_parameters. rewrite Hc. simpl.
    unfold effective_n_iter, scaling_is_one. rewrite A1, A2.
    now rewrite (proj2 (Req_b_true 1 1) eq_refl).
  - exists m. split; [|exact Hm].
    unfold annealing_parameters. now rewrite Hc.
Qed.

Lemma ValueError_implies_invalid (c : Config) (m : ValueErrorMsg) :
  annealing_parameters c = Raise (ValueError m) -> invalid_arguments c.
Proof.
  intros H. unfold annealing_parameters in H.
  destruct (check_arguments c) as [[]|e] eqn:Hc.
  - simpl in H. destruct (effective_n_iter c) as [n|e] eqn:Hn.
    + simpl in H.
      destruct (make_jumps c (make_blur_list c n)) as [js|e] eqn:Hj;
        simpl in H; [discriminate|].
      inversion H; subst. exfalso. exact (make_jumps_no_ValueError _ _ _ Hj).
    + unfold effective_n_iter, scaling_is_one in Hn.
      destruct (n_iter c) as [k|] eqn:Ek; [discriminate|].
      destruct (scaling c) as [s|] eqn:Es.
      * destruct (Req_b s 1) eqn:E1; [|discriminate].
        apply Req_b_true in E1. subst s.
        right; right; right. now split.
      * right; right; left. now split.
  - apply check_arguments_Raise in Hc. unfold invalid_arguments. tauto.
Qed.

(** C4: the call fails with a [ValueError] of the argument checks, and
    returns no plan, in each of the four cases: [n_iter] given and [<= 0],
    [scaling] given and outside [(0, 1]], both absent, [scaling == 1] with
    [n_iter] absent; and on the documented domain [blur > 0] a [ValueError]
    arises in these cases only. *)
Theorem C4_invalid_argument_cases (c : Config) :
  (invalid_arguments c ->
   (exists m, annealing_parameters c = Raise (ValueError m) /\
              m <> ScheduleSteeperThanScales) /\
   (forall d, annealing_parameters c <> OK d)) /\
  (0 < blur c ->
   forall m, annealing_parameters c = Raise (ValueError m) -> invalid_arguments c).
Proof.
  split.
  - intros Hinv. destruct (invalid_arguments_raise c Hinv) as [m [Hm Hne]].
    split; [now exists m|]. intros d. rewrite Hm. discriminate.
  - intros _ m. apply ValueError_implies_invalid.
Qed.

Lemma C4_invalid_argument_cases_witness :
  ((exists m, annealing_parameters cfg_unspecified = Raise (ValueError m) /\
              m <> ScheduleSteeperThanScales) /\
   (forall d, annealing_parameters cfg_unspecified <> OK d)) /\
  invalid_arguments cfg_unspecified.
Proof.
  split.
  - apply (proj1 (C4_invalid_argument_cases cfg_unspecified)).
    right; right; left. split; reflexivity.
  - apply (proj2 (C4_invalid_argument_cases cfg_unspecified))
      with (m := PleaseSpecifyNIterOrScaling).
    + simpl; lra.
    + reflexivity.
Defined.

(** *** The returned lists *)

(** C6: whenever a plan is returned, [blur_list], [eps_list] and [rho_list]
    have length [n_iter >= 1] (the given or derived number of iterations)
    and [eps_list[i] == blur_list[i] ** p] at every index; and a plan is
    returned for all valid arguments in single-scale mode. *)
Theorem C6_lengths_and_temperatures (c : Config) :
  documented_domain c ->
  (~ invalid_arguments c -> single_scale c = true ->
   exists d, annealing_parameters c = OK d) /\
  (forall d, annealing_parameters c = OK d ->
   exists n, effective_n_iter c = OK n /\ (1 <= n)%Z /\
     length (dp_blur_list d) = Z.to_nat n /\
     length (dp_eps_list d) = Z.to_nat n /\
     length (dp_rho_list d) = Z.to_nat n /\
     forall i b, nth_error (dp_blur_list d) i = Some b ->
                 nth_error (dp_eps_list d) i = Some (pow_float b (p c))).
Proof.
  intros [Hb _]. split.
  - intros Hv Hs. destruct (annealing_parameters_returns c Hv Hs) as [n [_ Hn]].
    eauto.
  - intros d Hd. apply annealing_parameters_OK in Hd as [n [Hc [Hn [_ ->]]]].
    exists n. split; [exact Hn|].
    split; [exact (effective_n_iter_positive c n Hb Hc Hn)|].
    simpl. unfold make_eps_list, make_rho_list.
    rewrite length_map, repeat_length, length_make_blur_list.
    repeat split.
    intros i b Hi. rewrite nth_error_map, Hi. reflexivity.
Qed.

Lemma C6_lengths_and_temperatures_witness :
  (exists d, annealing_parameters (cfg_constant None) = OK d) /\
  (exists n, effective_n_iter (cfg_constant None) = OK n /\ (1 <= n)%Z /\
     length (dp_blur_list plan_constant) = Z.to_nat n /\
     length (dp_eps_list plan_constant) = Z.to_nat n /\
     length (dp_rho_list plan_constant) = Z.to_nat n /\
     forall i b, nth_error (dp_blur_list plan_constant) i = Some b ->
                 nth_error (dp_eps_list plan_constant) i =
                 Some (pow_float b (p (cfg_constant None)))).
Proof.
  pose proof (C6_lengths_and_temperatures (cfg_constant None)
                (documented_domain_constant None)) as [Hret Hprop].
  split.
  - apply Hret; [apply valid_arguments_constant|reflexivity].
  - apply Hprop. apply annealing_parameters_constant.
Defined.

(** C7: whenever a plan is returned, [rho_list] consists of [n_iter] copies
    of one value: [None] when [reach] is absent, [reach ** p] when it is
    given. *)
Theorem C7_rho_list_constant (c : Config) (d : DescentParameters) :
  documented_domain c ->
  annealing_parameters c = OK d ->
  exists n, effective_n_iter c = OK n /\ (1 <= n)%Z /\
    (reach c = None -> dp_rho_list d = repeat None (Z.to_nat n)) /\
    (forall r, reach c = Some r ->
               dp_rho_list d = repeat (Some (pow_float r (p c))) (Z.to_nat n)).
Proof.
  intros [Hb _] Hd. apply annealing_parameters_OK in Hd as [n [Hc [Hn [_ ->]]]].
  exists n. split; [exact Hn|].
  split; [exact (effective_n_iter_positive c n Hb Hc Hn)|].
  simpl. unfold make_rho_list, make_rho. rewrite length_make_blur_list.
  split.
  - now intros ->.
  - now intros r ->.
Qed.

Lemma C7_rho_list_constant_witness :
  exists n, effective_n_iter (cfg_constant None) = OK n /\ (1 <= n)%Z /\
    (reach (cfg_constant None) = None ->
     dp_rho_list plan_constant = repeat None (Z.to_nat n)) /\
    (forall r, reach (cfg_constant None) = Some r ->
               dp_rho_list plan_constant =
               repeat (Some (pow_float r (p (cfg_constant None)))) (Z.to_nat n)).
Proof.
  apply (C7_rho_list_constant (cfg_constant None) plan_constant).
  - apply documented_domain_constant.
  - apply annealing_parameters_constant.
Defined.

(** C2 fails when both [n_iter] and [scaling] are supplied and [n_iter] is
    too small for the ramp to reach the floor: with
    [diameter=1, blur=0.01, n_iter=2, scaling=0.5] the plan has
    [blur_list = [1, 0.5]], whose last entry is not [blur]. *)
Lemma C2_counterexample :
  documented_domain cfg_short /\
  scaling cfg_short <> Some 1 /\
  annealing_parameters cfg_short = OK plan_short /\
  last_entry (dp_blur_list plan_short) = Some (1/2) /\
  last_entry (dp_blur_list plan_short) <> Some (blur cfg_short).
Proof.
  split; [apply documented_domain_short|].
  split; [simpl; intros H; inversion H; lra|].
  split; [apply annealing_parameters_short|].
  split; [reflexivity|].
  simpl. intros H. inversion H. lra.
Qed.

(** C2, amended: with [scaling != 1], the last entry of the returned
    [blur_list] is [blur] when [n_iter] is absent (derived from [scaling])
    or [scaling] is absent; when both are supplied it is
    [max(diameter * scaling ** (n_iter - 1), blur)], which is [blur] exactly
    when [diameter * scaling ** (n_iter - 1) <= blur]. *)
Theorem C2_last_blur_amended (c : Config) (d : DescentParameters) :
  documented_domain c ->
  scaling c <> Some 1 ->
  annealing_parameters c = OK d ->
  (n_iter c = None \/ scaling c = None ->
   last_entry (dp_blur_list d) = Some (blur c)) /\
  (forall n s, n_iter c = Some n -> scaling c = Some s ->
     last_entry (dp_blur_list d) =
       Some (Rmax (effective_diameter c * s ^ Z.to_nat (n - 1)) (blur c)) /\
     (last_entry (dp_blur_list d) = Some (blur c) <->
      effective_diameter c * s ^ Z.to_nat (n - 1) <= blur c)).
Proof.
  intros [Hb _] H1 Hd.
  apply annealing_parameters_OK in Hd as [n [Hc [Hn [_ ->]]]].
  pose proof (effective_n_iter_positive c n Hb Hc Hn) as Hpos.
  simpl. split.
  - destruct (scaling c) as [s|] eqn:Es.
    + intros [Hi|Hs]; [|discriminate].
      destruct (checked_scaling_range c s Hc Es) as [H0 Hle].
      apply (last_entry_make_blur_list_derived c Hb n s); try assumption.
      destruct Hle as [Hlt|Heq]; [exact Hlt|congruence].
    + intros _. now apply last_entry_make_blur_list_geom.
  - intros k s Hk Hs.
    assert (k = n) as ->.
    { unfold effective_n_iter in Hn. rewrite Hk in Hn. now inversion Hn. }
    destruct (checked_scaling_range c s Hc Hs) as [H0 _].
    assert (Hlast := last_entry_make_blur_list_ramp c Hb n s Hpos Hs H0).
    rewrite Hlast by congruence.
    split; [reflexivity|]. split.
    + intros H. inversion H as [Hmax]. rewrite Hmax.
      rewrite <- Hmax at 1. apply Rmax_l.
    + intros H. now rewrite Rmax_right.
Qed.

Lemma C2_last_blur_amended_witness :
  (n_iter cfg_short = None \/ scaling cfg_short = None ->
   last_entry (dp_blur_list plan_short) = Some (blur cfg_short)) /\
  (forall n s, n_iter cfg_short = Some n -> scaling cfg_short = Some s ->
     last_entry (dp_blur_list plan_short) =
       Some (Rmax (effective_diameter cfg_short * s ^ Z.to_nat (n - 1))
                  (blur cfg_short)) /\
     (last_entry (dp_blur_list plan_short) = Some (blur cfg_short) <->
      effective_diameter cfg_short * s ^ Z.to_nat (n - 1) <= blur cfg_short)).
Proof.
  apply (C2_last_blur_amended cfg_short plan_short).
  - apply documented_domain_short.
  - simpl. intros H. inversion H. lra.
  - apply annealing_parameters_short.
Defined.

(** C9 fails in its last part under the third policy: with
    [diameter=1, blur=0.01, n_iter=2, scaling=0.5] the plan has
    [blur_list = [1, 0.5]]; no entry, and in particular not the final one,
    is the floor value [blur]. *)
Lemma C9_counterexample :
  documented_domain cfg_short /\
  ~ invalid_arguments cfg_short /\
  annealing_parameters cfg_short = OK plan_short /\
  ~ In (blur cfg_short) (dp_blur_list plan_short) /\
  last_entry (dp_blur_list plan_short) <> Some (blur cfg_short).
Proof.
  split; [apply documented_domain_short|].
  split.
  { intros [[n [Hn Hle]]|[[s [Hs Hr]]|[[Hn _]|[Hn _]]]]; simpl in *;
      try discriminate.
    - inversion Hn; subst. lia.
    - inversion Hs; subst. lra. }
  split; [apply annealing_parameters_short|].
  split; simpl.
  - intros [H|[H|[]]]; lra.
  - intros H. inversion H. lra.
Qed.

(** C9, amended: under all three policies the returned [blur_list] is
    non-strictly decreasing and every entry is [>= blur]; its final entry is
    the floor value [blur] when [scaling == 1], when [scaling] is absent and
    when [n_iter] is absent, whereas with both [n_iter] and [scaling < 1]
    given it is [blur] exactly when
    [diameter * scaling ** (n_iter - 1) <= blur]. *)
Theorem C9_blur_list_descent_amended (c : Config) (d : DescentParameters) :
  documented_domain c ->
  annealing_parameters c = OK d ->
  non_increasing (dp_blur_list d) /\
  Forall (fun b => blur c <= b) (dp_blur_list d) /\
  (scaling c = Some 1 \/ scaling c = None \/ n_iter c = None ->
   last_entry (dp_blur_list d) = Some (blur c)) /\
  (forall n s, n_iter c = Some n -> scaling c = Some s -> s <> 1 ->
     (last_entry (dp_blur_list d) = Some (blur c) <->
      effective_diameter c * s ^ Z.to_nat (n - 1) <= blur c)).
Proof.
  intros [Hb _] Hd.
  apply annealing_parameters_OK in Hd as [n [Hc [Hn [_ ->]]]].
  pose proof (effective_n_iter_positive c n Hb Hc Hn) as Hpos.
  simpl. split; [|split; [|split]].
  - apply make_blur_list_non_increasing; [exact Hb|].
    intros s Hs. exact (checked_scaling_range c s Hc Hs).
  - now apply make_blur_list_ge_blur.
  - destruct (scaling c) as [s|] eqn:Es.
    + destruct (Req_dec_T s 1) as [->|Hne].
      * intros _. now apply last_entry_make_blur_list_constant.
      * intros [H|[H|Hi]]; [congruence|discriminate|].
        destruct (checked_scaling_range c s Hc Es) as [H0 Hle].
        apply (last_entry_make_blur_list_derived c Hb n s); try assumption.
        lra.
    + intros _. now apply last_entry_make_blur_list_geom.
  - intros k s Hk Hs Hne.
    assert (k = n) as ->.
    { unfold effective_n_iter in Hn. rewrite Hk in Hn. now inversion Hn. }
    destruct (checked_scaling_range c s Hc Hs) as [H0 _].
    rewrite (last_entry_make_blur_list_ramp c Hb n s Hpos Hs H0 Hne).
    split.
    + intros H. inversion H as [Hmax]. rewrite Hmax.
      rewrite <- Hmax at 1. apply Rmax_l.
    + intros H. now rewrite Rmax_right.
Qed.

Lemma C9_blur_list_descent_amended_witness :
  non_increasing (dp_blur_list plan_tenfold) /\
  Forall (fun b => blur (cfg_tenfold None) <= b) (dp_blur_list plan_tenfold) /\
  (scaling (cfg_tenfold None) = Some 1 \/ scaling (cfg_tenfold None) = None \/
   n_iter (cfg_tenfold None) = None ->
   last_entry (dp_blur_list plan_tenfold) = Some (blur (cfg_tenfold None))) /\
  (forall n s, n_iter (cfg_tenfold None) = Some n ->
     scaling (cfg_tenfold None) = Some s -> s <> 1 ->
     (last_entry (dp_blur_list plan_tenfold) = Some (blur (cfg_tenfold None)) <->
      effective_diameter (cfg_tenfold None) * s ^ Z.to_nat (n - 1)
      <= blur (cfg_tenfold None))).
Proof.
  apply (C9_blur_list_descent_amended (cfg_tenfold None) plan_tenfold).
  - apply documented_domain_tenfold.
  - apply annealing_parameters_tenfold.
Defined.

(** ** The dual scaling rule *)

(** C8: for an [UnbalancedWeight] built from [(eps, rho)], [forward(x)] is
    [(rho + eps/2) * x] and [backward(g)] is [(rho + eps) * g]; with
    [eps=2, rho=3], [forward(4) == 16] and [backward(4) == 20]; and the two
    multipliers differ whenever [eps != 0]. *)
Theorem C8_dual_scaling (eps rho : R) :
  let w := UnbalancedWeight.init eps rho in
  (forall x, UnbalancedWeight.forward w x = (rho + eps / 2) * x) /\
  (forall g, UnbalancedWeight.backward w g = (rho + eps) * g) /\
  UnbalancedWeight.forward (UnbalancedWeight.init 2 3) 4 = 16 /\
  UnbalancedWeight.backward (UnbalancedWeight.init 2 3) 4 = 20 /\
  (eps <> 0 ->
   rho + eps / 2 <> rho + eps /\
   forall x, x <> 0 ->
             UnbalancedWeight.forward w x <> UnbalancedWeight.backward w x).
Proof.
  intros w. repeat split.
  - unfold UnbalancedWeight.forward; simpl. lra.
  - unfold UnbalancedWeight.backward; simpl. lra.
  - lra.
  - intros x Hx. unfold UnbalancedWeight.forward, UnbalancedWeight.backward, w.
    simpl. intros Heq.
    assert (Hz : (eps / 2) * x = 0) by lra.
    apply Rmult_integral in Hz. lra.
Qed.

Lemma C8_dual_scaling_witness :
  3 + 2 / 2 <> 3 + 2 /\
  forall x, x <> 0 ->
            UnbalancedWeight.forward (UnbalancedWeight.init 2 3) x <>
            UnbalancedWeight.backward (UnbalancedWeight.init 2 3) x.
Proof.
  apply (proj2 (proj2 (proj2 (proj2 (C8_dual_scaling 2 3))))).
  lra.
Defined.

(** ** max_diameter: the box around two clouds *)

Lemma length_zip_with (f : R -> R -> R) (u v : torch.Vector) :
  length u = length v -> length (torch.zip_with f u v) = length u.
Proof.
  revert v. induction u as [|a u IH]; intros [|b v] H; simpl in *;
    try reflexivity; try discriminate.
  f_equal. apply IH. now inversion H.
Qed.

Lemma zip_with_comm (f : R -> R -> R) (u v : torch.Vector) :
  (forall a b, f a b = f b a) -> torch.zip_with f u v = torch.zip_with f v u.
Proof.
  intros Hf. revert v. induction u as [|a u IH]; intros [|b v]; simpl;
    try reflexivity.
  now rewrite Hf, IH.
Qed.

Lemma Forall2_Rle_refl (u : torch.Vector) : Forall2 Rle u u.
Proof. induction u; constructor; [lra|assumption]. Qed.

Lemma Forall2_Rle_trans (u v w : torch.Vector) :
  Forall2 Rle u v -> Forall2 Rle v w -> Forall2 Rle u w.
Proof.
  intros Huv. revert w. induction Huv as [|a b u v Hab _ IH]; intros w Hvw.
  - inversion Hvw. constructor.
  - inversion Hvw; subst. constructor; [lra|now apply IH].
Qed.

Lemma zip_min_below (u v : torch.Vector) :
  length u = length v ->
  Forall2 Rle (torch.zip_with Rmin u v) u /\ Forall2 Rle (torch.zip_with Rmin u v) v.
Proof.
  revert v. induction u as [|a u IH]; intros [|b v] H; simpl in *;
    try discriminate.
  - split; constructor.
  - destruct (IH v) as [H1 H2]; [now inversion H|].
    split; constructor; try assumption; [apply Rmin_l|apply Rmin_r].
Qed.

Lemma zip_max_above (u v : torch.Vector) :
  length u = length v ->
  Forall2 Rle u (torch.zip_with Rmax u v) /\ Forall2 Rle v (torch.zip_with Rmax u v).
Proof.
  revert v. induction u as [|a u IH]; intros [|b v] H; simpl in *;
    try discriminate.
  - split; constructor.
  - destruct (IH v) as [H1 H2]; [now inversion H|].
    split; constructor; try assumption; [apply Rmax_l|apply Rmax_r].
Qed.

(** The running minimum over the rows stays below the rows seen so far. *)
Lemma fold_min_below (D : nat) (rs : torch.Matrix) :
  has_columns D rs ->
  forall acc : torch.Vector, length acc = D ->
    length (fold_left (torch.zip_with Rmin) rs acc) = D /\
    Forall2 Rle (fold_left (torch.zip_with Rmin) rs acc) acc /\
    (forall a, In a rs -> Forall2 Rle (fold_left (torch.zip_with Rmin) rs acc) a).
Proof.
  induction 1 as [|r rs Hr Hrs IH]; intros acc Hacc; simpl.
  - repeat split; [exact Hacc|apply Forall2_Rle_refl|intros a []].
  - assert (Hlen : length acc = length r) by congruence.
    destruct (zip_min_below acc r Hlen) as [Hl Hrr].
    destruct (IH (torch.zip_with Rmin acc r)) as [HD [Hle Hin]].
    { rewrite length_zip_with; assumption. }
    repeat split; [exact HD|now apply Forall2_Rle_trans with (2 := Hl)|].
    intros a [<-|Ha]; [now apply Forall2_Rle_trans with (2 := Hrr)|now apply Hin].
Qed.

Lemma fold_max_above (D : nat) (rs : torch.Matrix) :
  has_columns D rs ->
  forall acc : torch.Vector, length acc = D ->
    length (fold_left (torch.zip_with Rmax) rs acc) = D /\
    Forall2 Rle acc (fold_left (torch.zip_with Rmax) rs acc) /\
    (forall a, In a rs -> Forall2 Rle a (fold_left (torch.zip_with Rmax) rs acc)).
Proof.
  induction 1 as [|r rs Hr Hrs IH]; intros acc Hacc; simpl.
  - repeat split; [exact Hacc|apply Forall2_Rle_refl|intros a []].
  - assert (Hlen : length acc = length r) by congruence.
    destruct (zip_max_above acc r Hlen) as [Hl Hrr].
    destruct (IH (torch.zip_with Rmax acc r)) as [HD [Hle Hin]].
    { rewrite length_zip_with; assumption. }
    repeat split; [exact HD|now apply Forall2_Rle_trans with (1 := Hl)|].
    intros a [<-|Ha]; [now apply Forall2_Rle_trans with (1 := Hrr)|now apply Hin].
Qed.

Lemma min_dim0_below (D : nat) (t : torch.Matrix) (m : torch.Vector) :
  has_columns D t -> torch.min_dim0 t = Some m ->
  length m = D /\ forall a, In a t -> Forall2 Rle m a.
Proof.
  intros Ht Hm. destruct t as [|r rs]; [discriminate|].
  inversion Hm; subst m.
  pose proof (Forall_inv Ht) as Hr. pose proof (Forall_inv_tail Ht) as Hrs.
  simpl in Hr. subst D.
  destruct (fold_min_below (length r) rs Hrs r eq_refl) as [HD [Hle Hin]].
  split; [exact HD|]. intros a [<-|Ha]; [exact Hle|now apply Hin].
Qed.

Lemma max_dim0_above (D : nat) (t : torch.Matrix) (m : torch.Vector) :
  has_columns D t -> torch.max_dim0 t = Some m ->
  length m = D /\ forall a, In a t -> Forall2 Rle a m.
Proof.
  intros Ht Hm. destruct t as [|r rs]; [discriminate|].
  inversion Hm; subst m.
  pose proof (Forall_inv Ht) as Hr. pose proof (Forall_inv_tail Ht) as Hrs.
  simpl in Hr. subst D.
  destruct (fold_max_above (length r) rs Hrs r eq_refl) as [HD [Hle Hin]].
  split; [exact HD|]. intros a [<-|Ha]; [exact Hle|now apply Hin].
Qed.

(** [max_diameter] in one step: the norm of the difference between the
    upper and the lower corner of the box, when the four reductions succeed
    on rows of one length. *)
Lemma max_diameter_unfold (x y : torch.Matrix) :
  max_diameter x y =
  match torch.min_dim0 x, torch.min_dim0 y, torch.max_dim0 x, torch.max_dim0 y with
  | Some xmin, Some ymin, Some xmax, Some ymax =>
      if ((length xmin =? length ymin) && (length xmax =? length ymax))%nat
      then Some (torch.norm (torch.sub (torch.zip_with Rmax xmax ymax)
                                       (torch.zip_with Rmin xmin ymin)))
      else None
  | _, _, _, _ => None
  end.
Proof.
  unfold max_diameter, torch.stack.
  destruct x as [|rx x], y as [|ry y]; simpl; try reflexivity.
  destruct (length (fold_left (torch.zip_with Rmin) x rx)
            =? length (fold_left (torch.zip_with Rmin) y ry))%nat; simpl;
    [|reflexivity].
  destruct (length (fold_left (torch.zip_with Rmax) x rx)
            =? length (fold_left (torch.zip_with Rmax) y ry))%nat; simpl;
    reflexivity.
Qed.

Lemma sum_squares_nonneg (u : torch.Vector) : 0 <= torch.sum_squares u.
Proof. induction u as [|a u IH]; simpl; [lra|nra]. Qed.

(** Two points inside the box [lo, hi] are no further apart than its
    corners. *)
Lemma sum_squares_in_box (lo hi a b : torch.Vector) :
  Forall2 Rle lo a -> Forall2 Rle a hi ->
  Forall2 Rle lo b -> Forall2 Rle b hi ->
  torch.sum_squares (torch.sub a b) <= torch.sum_squares (torch.sub hi lo).
Proof.
  intros Hla. revert hi b.
  induction Hla as [|l0 a0 lo a Hl _ IH]; intros hi b Hah Hlb Hbh.
  - inversion Hah; subst. simpl. lra.
  - inversion Hah as [|? h0 ? hi' Hh Hah']; subst.
    inversion Hlb as [|? b0 ? b' Hb Hlb']; subst.
    inversion Hbh as [|? ? ? ? Hbh0 Hbh']; subst.
    simpl. specialize (IH _ _ Hah' Hlb' Hbh').
    unfold torch.sub in IH. nra.
Qed.

Lemma max_diameter_Some (D : nat) (x y : torch.Matrix) (v : R) :
  has_columns D x -> has_columns D y -> max_diameter x y = Some v ->
  exists lo hi : torch.Vector,
    v = torch.norm (torch.sub hi lo) /\
    length lo = D /\ length hi = D /\
    (forall a, In a (x ++ y) -> Forall2 Rle lo a /\ Forall2 Rle a hi).
Proof.
  intros Hx Hy Hv. rewrite max_diameter_unfold in Hv.
  destruct (torch.min_dim0 x) as [xmin|] eqn:Exmin; [|discriminate].
  destruct (torch.min_dim0 y) as [ymin|] eqn:Eymin; [|discriminate].
  destruct (torch.max_dim0 x) as [xmax|] eqn:Exmax; [|discriminate].
  destruct (torch.max_dim0 y) as [ymax|] eqn:Eymax; [|discriminate].
  destruct (min_dim0_below D x xmin Hx Exmin) as [Lxmin Bxmin].
  destruct (min_dim0_below D y ymin Hy Eymin) as [Lymin Bymin].
  destruct (max_dim0_above D x xmax Hx Exmax) as [Lxmax Bxmax].
  destruct (max_dim0_above D y ymax Hy Eymax) as [Lymax Bymax].
  rewrite Lxmin, Lymin, Lxmax, Lymax, Nat.eqb_refl in Hv. simpl in Hv.
  inversion Hv; subst v.
  destruct (zip_min_below xmin ymin) as [Hlx Hly]; [congruence|].
  destruct (zip_max_above xmax ymax) as [Hhx Hhy]; [congruence|].
  exists (torch.zip_with Rmin xmin ymin), (torch.zip_with Rmax xmax ymax).
  split; [reflexivity|].
  split; [rewrite length_zip_with; congruence|].
  split; [rewrite length_zip_with; congruence|].
  intros a Ha. apply in_app_or in Ha as [Ha|Ha]; split.
  - apply Forall2_Rle_trans with (1 := Hlx). now apply Bxmin.
  - apply Forall2_Rle_trans with (2 := Hhx). now apply Bxmax.
  - apply Forall2_Rle_trans with (1 := Hly). now apply Bymin.
  - apply Forall2_Rle_trans with (2 := Hhy). now apply Bymax.
Qed.

(** X1: [max_diameter(x, y)] is an upper bound on the distance between any
    two points of the two clouds, in particular between [x[i]] and [y[j]]. *)
Theorem X1_max_diameter_bounds_distances
        (D : nat) (x y : torch.Matrix) (v : R) (a b : torch.Vector) :
  has_columns D x -> has_columns D y ->
  max_diameter x y = Some v ->
  In a (x ++ y) -> In b (x ++ y) ->
  distance a b <= v.
Proof.
  intros Hx Hy Hv Ha Hb.
  destruct (max_diameter_Some D x y v Hx Hy Hv) as [lo [hi [-> [_ [_ Hbox]]]]].
  destruct (Hbox a Ha) as [Hla Hah]. destruct (Hbox b Hb) as [Hlb Hbh].
  unfold distance, torch.norm. apply sqrt_le_1_alt.
  now apply sum_squares_in_box.
Qed.

Lemma X1_max_diameter_bounds_distances_witness :
  distance [1; 2] [3; 1] <=
  torch.norm (torch.sub [Rmax (Rmax 0 1) 3; Rmax (Rmax 0 2) 1]
                        [Rmin (Rmin 0 1) 3; Rmin (Rmin 0 2) 1]).
Proof.
  apply (X1_max_diameter_bounds_distances 2 [[0; 0]; [1; 2]] [[3; 1]]).
  - repeat constructor.
  - repeat constructor.
  - reflexivity.
  - simpl; auto.
  - simpl; auto.
Defined.

(** X2: on two clouds of points of one dimension, [max_diameter] returns a
    value exactly when both clouds have at least one point, and the value is
    never negative. *)
Theorem X2_max_diameter_defined (D : nat) (x y : torch.Matrix) :
  has_columns D x -> has_columns D y ->
  ((exists v, max_diameter x y = Some v) <-> x <> [] /\ y <> []) /\
  (forall v, max_diameter x y = Some v -> 0 <= v).
Proof.
  intros Hx Hy. split.
  - split.
    + intros [v Hv]. rewrite max_diameter_unfold in Hv.
      destruct x, y; simpl in Hv; try discriminate. split; discriminate.
    + intros [Hxn Hyn]. rewrite max_diameter_unfold.
      destruct (torch.min_dim0 x) as [xmin|] eqn:Exmin;
        [|destruct x; [congruence|discriminate]].
      destruct (torch.min_dim0 y) as [ymin|] eqn:Eymin;
        [|destruct y; [congruence|discriminate]].
      destruct (torch.max_dim0 x) as [xmax|] eqn:Exmax;
        [|destruct x; [congruence|discriminate]].
      destruct (torch.max_dim0 y) as [ymax|] eqn:Eymax;
        [|destruct y; [congruence|discriminate]].
      destruct (min_dim0_below D x xmin Hx Exmin) as [Lxmin _].
      destruct (min_dim0_below D y ymin Hy Eymin) as [Lymin _].
      destruct (max_dim0_above D x xmax Hx Exmax) as [Lxmax _].
      destruct (max_dim0_above D y ymax Hy Eymax) as [Lymax _].
      rewrite Lxmin, Lymin, Lxmax, Lymax, Nat.eqb_refl. simpl. eauto.
  - intros v Hv.
    destruct (max_diameter_Some D x y v Hx Hy Hv) as [lo [hi [-> _]]].
    apply sqrt_pos.
Qed.

Lemma X2_max_diameter_defined_witness :
  ((exists v, max_diameter [[0; 0]; [1; 2]] [[3; 1]] = Some v) <->
   [[0; 0]; [1; 2]] <> [] /\ [[3; 1]] <> []) /\
  (forall v, max_diameter [[0; 0]; [1; 2]] [[3; 1]] = Some v -> 0 <= v).
Proof.
  apply (X2_max_diameter_defined 2); repeat constructor.
Defined.

(** X3: [max_diameter] does not depend on the order of the two clouds. *)
Theorem X3_max_diameter_symmetric (x y : torch.Matrix) :
  max_diameter x y = max_diameter y x.
Proof.
  rewrite !max_diameter_unfold.
  destruct (torch.min_dim0 x) as [xmin|], (torch.min_dim0 y) as [ymin|],
           (torch.max_dim0 x) as [xmax|], (torch.max_dim0 y) as [ymax|];
    try reflexivity.
  rewrite (Nat.eqb_sym (length ymin)), (Nat.eqb_sym (length ymax)).
  rewrite (zip_with_comm Rmin ymin xmin Rmin_comm).
  rewrite (zip_with_comm Rmax ymax xmax Rmax_comm).
  reflexivity.
Qed.

Lemma Rmin_plus_r (a b t : R) : Rmin (a + t) (b + t) = Rmin a b + t.
Proof.
  unfold Rmin. destruct (Rle_dec (a + t) (b + t)), (Rle_dec a b); lra.
Qed.

Lemma Rmax_plus_r (a b t : R) : Rmax (a + t) (b + t) = Rmax a b + t.
Proof.
  unfold Rmax. destruct (Rle_dec (a + t) (b + t)), (Rle_dec a b); lra.
Qed.

(** Moving two rows by [t] moves their entrywise minimum or maximum by [t]. *)
Lemma zip_with_translate (f : R -> R -> R) (u v t : torch.Vector) :
  (forall a b c, f (a + c) (b + c) = f a b + c) ->
  length u = length t -> length v = length t ->
  torch.zip_with f (torch.zip_with Rplus u t) (torch.zip_with Rplus v t) =
  torch.zip_with Rplus (torch.zip_with f u v) t.
Proof.
  intros Hf. revert v t.
  induction u as [|a u IH]; intros [|b v] [|c t] Hu Hv; simpl in *;
    try reflexivity; try discriminate.
  rewrite Hf, IH; [reflexivity|now inversion Hu|now inversion Hv].
Qed.

Lemma fold_translate (f : R -> R -> R) (D : nat) (t : torch.Vector)
      (rs : torch.Matrix) :
  (forall a b c, f (a + c) (b + c) = f a b + c) ->
  length t = D -> has_columns D rs ->
  forall acc : torch.Vector, length acc = D ->
    fold_left (torch.zip_with f) (translate t rs) (torch.zip_with Rplus acc t) =
    torch.zip_with Rplus (fold_left (torch.zip_with f) rs acc) t /\
    length (fold_left (torch.zip_with f) rs acc) = D.
Proof.
  intros Hf Ht. induction 1 as [|r rs Hr Hrs IH]; intros acc Hacc; simpl.
  - split; [reflexivity|exact Hacc].
  - rewrite zip_with_translate by congruence.
    apply IH. rewrite length_zip_with; congruence.
Qed.

Lemma min_dim0_translate (D : nat) (t : torch.Vector) (x : torch.Matrix) :
  length t = D -> has_columns D x ->
  torch.min_dim0 (translate t x) =
  option_map (fun m => torch.zip_with Rplus m t) (torch.min_dim0 x).
Proof.
  intros Ht Hx. destruct x as [|r rs]; [reflexivity|]. simpl.
  f_equal. apply (fold_translate Rmin D t rs Rmin_plus_r Ht).
  - exact (Forall_inv_tail Hx).
  - exact (Forall_inv Hx).
Qed.

Lemma max_dim0_translate (D : nat) (t : torch.Vector) (x : torch.Matrix) :
  length t = D -> has_columns D x ->
  torch.max_dim0 (translate t x) =
  option_map (fun m => torch.zip_with Rplus m t) (torch.max_dim0 x).
Proof.
  intros Ht Hx. destruct x as [|r rs]; [reflexivity|]. simpl.
  f_equal. apply (fold_translate Rmax D t rs Rmax_plus_r Ht).
  - exact (Forall_inv_tail Hx).
  - exact (Forall_inv Hx).
Qed.

Lemma sub_translate (u v t : torch.Vector) :
  length u = length t -> length v = length t ->
  torch.sub (torch.zip_with Rplus u t) (torch.zip_with Rplus v t) = torch.sub u v.
Proof.
  revert v t.
  induction u as [|a u IH]; intros [|b v] [|c t] Hu Hv; simpl in *;
    try reflexivity; try discriminate.
  unfold torch.sub in *. simpl. f_equal; [lra|].
  apply IH; [now inversion Hu|now inversion Hv].
Qed.

(** X4: moving both clouds by one vector does not change [max_diameter]. *)
Theorem X4_max_diameter_translation_invariant
        (D : nat) (t : torch.Vector) (x y : torch.Matrix) :
  length t = D -> has_columns D x -> has_columns D y ->
  max_diameter (translate t x) (translate t y) = max_diameter x y.
Proof.
  intros Ht Hx Hy. rewrite !max_diameter_unfold.
  rewrite (min_dim0_translate D t x Ht Hx), (min_dim0_translate D t y Ht Hy).
  rewrite (max_dim0_translate D t x Ht Hx), (max_dim0_translate D t y Ht Hy).
  destruct (torch.min_dim0 x) as [xmin|] eqn:Exmin; [|reflexivity].
  destruct (torch.min_dim0 y) as [ymin|] eqn:Eymin; [|reflexivity].
  destruct (torch.max_dim0 x) as [xmax|] eqn:Exmax; [|reflexivity].
  destruct (torch.max_dim0 y) as [ymax|] eqn:Eymax; [|reflexivity].
  destruct (min_dim0_below D x xmin Hx Exmin) as [Lxmin _].
  destruct (min_dim0_below D y ymin Hy Eymin) as [Lymin _].
  destruct (max_dim0_above D x xmax Hx Exmax) as [Lxmax _].
  destruct (max_dim0_above D y ymax Hy Eymax) as [Lymax _].
  simpl. rewrite !length_zip_with by congruence.
  rewrite Lxmin, Lymin, Lxmax, Lymax, Nat.eqb_refl. simpl.
  rewrite (zip_with_translate Rmin) by (congruence || exact Rmin_plus_r).
  rewrite (zip_with_translate Rmax) by (congruence || exact Rmax_plus_r).
  rewrite sub_translate; [reflexivity| |];
    rewrite length_zip_with; congruence.
Qed.

Lemma X4_max_diameter_translation_invariant_witness :
  max_diameter (translate [5; -1] [[0; 0]; [1; 2]]) (translate [5; -1] [[3; 1]]) =
  max_diameter [[0; 0]; [1; 2]] [[3; 1]].
Proof.
  apply (X4_max_diameter_translation_invariant 2); repeat constructor.
Defined.

Lemma zip_with_idem (f : R -> R -> R) (u : torch.Vector) :
  (forall a, f a a = a) -> torch.zip_with f u u = u.
Proof. intros Hf. induction u as [|a u IH]; simpl; [reflexivity|now rewrite Hf, IH]. Qed.

Lemma Rmin_idem (a : R) : Rmin a a = a.
Proof. apply Rmin_left. lra. Qed.

Lemma Rmax_idem (a : R) : Rmax a a = a.
Proof. apply Rmax_left. lra. Qed.

Lemma fold_idem (f : R -> R -> R) (r : torch.Vector) (rs : torch.Matrix) :
  (forall a, f a a = a) -> (forall a, In a rs -> a = r) ->
  fold_left (torch.zip_with f) rs r = r.
Proof.
  intros Hf. induction rs as [|r' rs IH]; intros Hall; simpl; [reflexivity|].
  rewrite (Hall r') by now left. rewrite zip_with_idem by exact Hf.
  apply IH. intros a Ha. apply Hall. now right.
Qed.

Lemma sum_squares_sub_self (u : torch.Vector) : torch.sum_squares (torch.sub u u) = 0.
Proof.
  unfold torch.sub. induction u as [|a u IH]; simpl; [reflexivity|].
  rewrite IH. lra.
Qed.

Lemma sum_squares_sub_zero (u v : torch.Vector) :
  length u = length v -> torch.sum_squares (torch.sub u v) = 0 -> u = v.
Proof.
  unfold torch.sub. revert v.
  induction u as [|a u IH]; intros [|b v] Hlen H; simpl in *;
    try reflexivity; try discriminate.
  pose proof (sum_squares_nonneg (torch.zip_with Rminus u v)) as Hpos.
  pose proof (Rle_0_sqr (a - b)) as Hsq. unfold Rsqr in Hsq.
  assert (Ha : (a - b) * (a - b) = 0) by lra.
  assert (Hs : torch.sum_squares (torch.zip_with Rminus u v) = 0) by lra.
  apply Rmult_integral in Ha.
  f_equal; [lra|]. apply IH; [now inversion Hlen|exact Hs].
Qed.

(** X5: [max_diameter] is zero exactly when the two clouds consist of one
    and the same point, repeated. *)
Theorem X5_max_diameter_zero (D : nat) (x y : torch.Matrix) (v : R) :
  has_columns D x -> has_columns D y ->
  max_diameter x y = Some v ->
  (v = 0 <-> forall a b, In a (x ++ y) -> In b (x ++ y) -> a = b).
Proof.
  intros Hx Hy Hv. split.
  - intros -> a b Ha Hb.
    destruct (max_diameter_Some D x y 0 Hx Hy Hv) as [lo [hi [Hn [_ [_ Hbox]]]]].
    destruct (Hbox a Ha) as [Hla Hah]. destruct (Hbox b Hb) as [Hlb Hbh].
    pose proof (sum_squares_in_box lo hi a b Hla Hah Hlb Hbh) as Hle.
    pose proof (sum_squares_nonneg (torch.sub a b)) as Hab.
    pose proof (sum_squares_nonneg (torch.sub hi lo)) as Hhl.
    unfold torch.norm in Hn. symmetry in Hn. apply sqrt_eq_0 in Hn; [|exact Hhl].
    apply sum_squares_sub_zero; [|lra].
    assert (HD : has_columns D (x ++ y)) by (apply Forall_app; now split).
    unfold has_columns in HD. rewrite Forall_forall in HD.
    rewrite (HD a Ha), (HD b Hb). reflexivity.
  - intros Hall. rewrite max_diameter_unfold in Hv.
    destruct x as [|rx x]; [discriminate|]. destruct y as [|ry y]; [discriminate|].
    simpl in Hv.
    assert (Hxs : forall a, In a x -> a = rx).
    { intros a Ha. apply Hall; [right; apply in_or_app; now left|now left]. }
    assert (Hys : forall a, In a y -> a = ry).
    { intros a Ha. apply Hall; apply in_or_app; right; [now right|now left]. }
    assert (Hry : ry = rx).
    { apply Hall; [apply in_or_app; right; now left|now left]. }
    rewrite !(fold_idem Rmin), !(fold_idem Rmax) in Hv
      by (assumption || exact Rmin_idem || exact Rmax_idem).
    subst ry. rewrite Nat.eqb_refl in Hv. simpl in Hv.
    rewrite (zip_with_idem Rmin), (zip_with_idem Rmax) in Hv
      by (exact Rmin_idem || exact Rmax_idem).
    inversion Hv. unfold torch.norm. rewrite sum_squares_sub_self. apply sqrt_0.
Qed.

Lemma X5_max_diameter_zero_witness :
  torch.norm (torch.sub [Rmax (Rmax 0 1) 3; Rmax (Rmax 0 2) 1]
                        [Rmin (Rmin 0 1) 3; Rmin (Rmin 0 2) 1]) = 0 <->
  forall a b, In a ([[0; 0]; [1; 2]] ++ [[3; 1]]) ->
              In b ([[0; 0]; [1; 2]] ++ [[3; 1]]) -> a = b.
Proof.
  apply (X5_max_diameter_zero 2 [[0; 0]; [1; 2]] [[3; 1]]).
  - repeat constructor.
  - repeat constructor.
  - reflexivity.
Defined.

(** ** Further properties of the schedule *)

Lemma exp_ln_effective_diameter (c : Config) :
  0 < blur c -> np.exp (np.log (effective_diameter c)) = effective_diameter c.
Proof. intros Hb. unfold np.exp, np.log. apply exp_ln. now apply effective_diameter_pos. Qed.

Lemma blur_le_effective_diameter (c : Config) : blur c <= effective_diameter c.
Proof. apply Rmax_r. Qed.

Lemma ramp_entry_le_diameter (c : Config) (s : R) (i : Z) :
  0 < blur c -> 0 < s -> s <= 1 -> (0 <= i)%Z ->
  ramp_entry c s i <= effective_diameter c.
Proof.
  intros Hb H0 H1 Hi. rewrite <- (exp_ln_effective_diameter c Hb).
  unfold ramp_entry, np.exp. apply exp_monotone.
  pose proof (ln_effective_diameter c Hb) as Hd.
  assert (Hs : np.log s <= 0).
  { unfold np.log. destruct H1 as [H1|H1]; [|rewrite H1, ln_1; lra].
    left. now apply ln_scaling_neg. }
  apply IZR_le in Hi. unfold np.log in *.
  apply Rmax_lub; nra.
Qed.

Lemma geom_entry_le_diameter (c : Config) (n i : Z) :
  0 < blur c -> (0 <= i)%Z -> (2 <= n)%Z ->
  geom_entry c n i <= effective_diameter c.
Proof.
  intros Hb Hi Hn. rewrite <- (exp_ln_effective_diameter c Hb).
  unfold geom_entry, np.exp. apply exp_monotone.
  pose proof (ln_effective_diameter c Hb) as Hd. unfold np.log in *.
  assert (Hq : 0 <= IZR i / IZR (n - 1)).
  { apply Rmult_le_pos; [apply IZR_le; lia|].
    left. apply Rinv_0_lt_compat. apply IZR_lt. lia. }
  generalize dependent (IZR i / IZR (n - 1)). intros q Hq. nra.
Qed.

Lemma make_blur_list_le_diameter (c : Config) (n : Z) :
  0 < blur c -> (1 <= n)%Z ->
  (forall s, scaling c = Some s -> 0 < s <= 1) ->
  Forall (fun b => b <= effective_diameter c) (make_blur_list c n).
Proof.
  intros Hb Hn Hs. destruct (scaling c) as [s|] eqn:Es.
  - destruct (Req_dec_T s 1) as [->|H1].
    + rewrite make_blur_list_constant by assumption.
      apply Forall_forall. intros x Hx. apply repeat_spec in Hx. subst x.
      apply blur_le_effective_diameter.
    + rewrite (make_blur_list_ramp c s n Es H1).
      apply map_arange_Forall. intros i Hi.
      destruct (Hs s eq_refl). apply ramp_entry_le_diameter; lra || lia.
  - destruct (Z.eq_dec n 1) as [->|Hne].
    + rewrite make_blur_list_single by assumption.
      constructor; [apply blur_le_effective_diameter|constructor].
    + rewrite make_blur_list_geom by assumption.
      apply map_arange_Forall. intros i Hi.
      apply geom_entry_le_diameter; lia || assumption.
Qed.

(** X6: the returned [diameter] is [max(diameter, blur)], so it is neither
    below the given diameter nor below [blur]; and no entry of the returned
    [blur_list] exceeds it. *)
Theorem X6_diameter_bounds_blur_list (c : Config) (d : DescentParameters) :
  documented_domain c ->
  annealing_parameters c = OK d ->
  dp_diameter d = Rmax (diameter c) (blur c) /\
  diameter c <= dp_diameter d /\ blur c <= dp_diameter d /\
  Forall (fun b => b <= dp_diameter d) (dp_blur_list d).
Proof.
  intros [Hb _] Hd.
  apply annealing_parameters_OK in Hd as [n [Hc [Hn [_ ->]]]].
  pose proof (effective_n_iter_positive c n Hb Hc Hn) as Hpos.
  simpl. unfold effective_diameter.
  split; [reflexivity|]. split; [apply Rmax_l|]. split; [apply Rmax_r|].
  apply (make_blur_list_le_diameter c n Hb Hpos).
  intros s Hs. exact (checked_scaling_range c s Hc Hs).
Qed.

Lemma X6_diameter_bounds_blur_list_witness :
  dp_diameter plan_tenfold = Rmax (diameter (cfg_tenfold None)) (blur (cfg_tenfold None)) /\
  diameter (cfg_tenfold None) <= dp_diameter plan_tenfold /\
  blur (cfg_tenfold None) <= dp_diameter plan_tenfold /\
  Forall (fun b => b <= dp_diameter plan_tenfold) (dp_blur_list plan_tenfold).
Proof.
  apply (X6_diameter_bounds_blur_list (cfg_tenfold None) plan_tenfold).
  - apply documented_domain_tenfold.
  - apply annealing_parameters_tenfold.
Defined.

Lemma ramp_entry_first (c : Config) (s : R) :
  0 < blur c -> ramp_entry c s 0 = effective_diameter c.
Proof.
  intros Hb. rewrite <- (exp_ln_effective_diameter c Hb).
  unfold ramp_entry. f_equal. rewrite Rmult_0_l, Rplus_0_r.
  apply Rmax_left. exact (ln_effective_diameter c Hb).
Qed.

Lemma geom_entry_first (c : Config) (n : Z) :
  0 < blur c -> geom_entry c n 0 = effective_diameter c.
Proof.
  intros Hb. rewrite <- (exp_ln_effective_diameter c Hb).
  unfold geom_entry. f_equal. unfold Rdiv. rewrite !Rmult_0_l. lra.
Qed.

(** X7: the returned [blur_list] starts at the returned [diameter], except
    under [scaling == 1] and under [n_iter == 1] without [scaling], where it
    starts (and stays) at [blur]. *)
Theorem X7_first_blur (c : Config) (d : DescentParameters) :
  documented_domain c ->
  annealing_parameters c = OK d ->
  (scaling c = Some 1 \/ (scaling c = None /\ n_iter c = Some 1%Z) ->
   nth_error (dp_blur_list d) 0 = Some (blur c)) /\
  (scaling c <> Some 1 -> ~ (scaling c = None /\ n_iter c = Some 1%Z) ->
   nth_error (dp_blur_list d) 0 = Some (dp_diameter d)).
Proof.
  intros [Hb _] Hd.
  apply annealing_parameters_OK in Hd as [n [Hc [Hn [_ ->]]]].
  pose proof (effective_n_iter_positive c n Hb Hc Hn) as Hpos.
  unfold descent_of; cbn [dp_blur_list dp_diameter]. split.
  - intros [Hs|[Hs Hi]].
    + rewrite make_blur_list_constant by exact Hs.
      rewrite nth_error_repeat; [reflexivity|lia].
    + unfold effective_n_iter in Hn. rewrite Hi in Hn. inversion Hn; subst n.
      now rewrite make_blur_list_single.
  - intros H1 H2. destruct (scaling c) as [s|] eqn:Es.
    + rewrite (make_blur_list_ramp c s n Es) by congruence.
      apply nth_error_map_arange. split; [lia|].
      simpl. now rewrite ramp_entry_first.
    + destruct (Z.eq_dec n 1) as [->|Hne].
      * exfalso. apply H2. split; [reflexivity|].
        unfold effective_n_iter, scaling_is_one in Hn. rewrite Es in Hn.
        destruct (n_iter c); [congruence|discriminate].
      * rewrite make_blur_list_geom by assumption.
        apply nth_error_map_arange. split; [lia|].
        simpl. now rewrite geom_entry_first.
Qed.

Lemma X7_first_blur_witness :
  (scaling (cfg_tenfold None) = Some 1 \/
   (scaling (cfg_tenfold None) = None /\ n_iter (cfg_tenfold None) = Some 1%Z) ->
   nth_error (dp_blur_list plan_tenfold) 0 = Some (blur (cfg_tenfold None))) /\
  (scaling (cfg_tenfold None) <> Some 1 ->
   ~ (scaling (cfg_tenfold None) = None /\ n_iter (cfg_tenfold None) = Some 1%Z) ->
   nth_error (dp_blur_list plan_tenfold) 0 = Some (dp_diameter plan_tenfold)).
Proof.
  apply (X7_first_blur (cfg_tenfold None) plan_tenfold).
  - apply documented_domain_tenfold.
  - apply annealing_parameters_tenfold.
Defined.

Lemma exp_nat_mult (t : R) (k : nat) : exp (INR k * t) = exp t ^ k.
Proof.
  induction k as [|k IH].
  - simpl. rewrite Rmult_0_l. apply exp_0.
  - rewrite S_INR, Rmult_plus_distr_r, Rmult_1_l, exp_plus, IH. simpl. lra.
Qed.

Lemma IZR_of_nat (k : nat) : IZR (Z.of_nat k) = INR k.
Proof. symmetry. apply INR_IZR_INZ. Qed.

(** The unclamped ramp, [diameter * scaling ** k], in log-space. *)
Lemma exp_ramp (c : Config) (s : R) (k : nat) :
  0 < blur c -> 0 < s ->
  exp (ln (effective_diameter c) + INR k * ln s) = effective_diameter c * s ^ k.
Proof.
  intros Hb Hs. rewrite exp_plus, exp_nat_mult_ln by exact Hs.
  rewrite exp_ln by now apply effective_diameter_pos. reflexivity.
Qed.

(** X8: when [scaling] is given and is not 1, entry [i] of the returned
    [blur_list] is [max(diameter * scaling ** i, blur)], computed from the
    returned diameter: a geometric ramp of ratio [scaling], floored at
    [blur]. *)
Theorem X8_ramp_closed_form (c : Config) (d : DescentParameters) (s : R) :
  documented_domain c ->
  annealing_parameters c = OK d ->
  scaling c = Some s -> s <> 1 ->
  forall (i : nat) (x : R),
    nth_error (dp_blur_list d) i = Some x ->
    x = Rmax (dp_diameter d * s ^ i) (blur c).
Proof.
  intros [Hb _] Hd Hs H1 i x Hx.
  apply annealing_parameters_OK in Hd as [n [Hc [Hn [_ ->]]]].
  unfold descent_of in *; cbn [dp_blur_list dp_diameter] in *.
  rewrite (make_blur_list_ramp c s n Hs H1) in Hx.
  apply nth_error_map_arange in Hx as [Hi ->].
  destruct (checked_scaling_range c s Hc Hs) as [H0 _].
  rewrite (ramp_entry_closed_form c Hb s (Z.of_nat i) H0) by lia.
  now rewrite Nat2Z.id.
Qed.

Lemma X8_ramp_closed_form_witness :
  1/2 = Rmax (dp_diameter plan_short * (1/2) ^ 1) (blur cfg_short).
Proof.
  apply (X8_ramp_closed_form cfg_short plan_short (1/2)).
  - apply documented_domain_short.
  - apply annealing_parameters_short.
  - reflexivity.
  - lra.
  - reflexivity.
Defined.

(** X9: when [n_iter] is derived from [scaling], the returned [blur_list] is
    the plain geometric ramp [diameter * scaling ** i] at every index but the
    last, and [blur] at the last; its length [n] is at least 2 and brackets
    the target: [diameter * scaling ** (n-1) <= blur <= diameter * scaling ** (n-2)]. *)
Theorem X9_derived_schedule_shape (c : Config) (d : DescentParameters) (s : R) :
  documented_domain c ->
  n_iter c = None -> scaling c = Some s ->
  annealing_parameters c = OK d ->
  let n := length (dp_blur_list d) in
  (2 <= n)%nat /\
  (forall i, (i + 1 < n)%nat ->
             nth_error (dp_blur_list d) i = Some (dp_diameter d * s ^ i)) /\
  nth_error (dp_blur_list d) (n - 1) = Some (blur c) /\
  dp_diameter d * s ^ (n - 1) <= blur c <= dp_diameter d * s ^ (n - 2).
Proof.
  intros [Hb _] Hi Hs Hd.
  apply annealing_parameters_OK in Hd as [n [Hc [Hn [_ ->]]]].
  unfold descent_of; cbn [dp_blur_list dp_diameter].
  destruct (checked_scaling_range c s Hc Hs) as [H0 Hle].
  assert (H1 : s < 1).
  { destruct Hle as [Hlt|Heq]; [exact Hlt|]. exfalso. subst s.
    unfold effective_n_iter, scaling_is_one in Hn. rewrite Hi, Hs in Hn.
    rewrite (proj2 (Req_b_true 1 1) eq_refl) in Hn. discriminate. }
  pose proof Hn as Hn'.
  unfold effective_n_iter, scaling_is_one in Hn'. rewrite Hi, Hs in Hn'.
  rewrite (proj2 (Req_b_false s 1)) in Hn' by lra.
  assert (Hdef : (Zfloor (descent_ratio c s) + 2)%Z = n)
    by (inversion Hn'; reflexivity).
  pose proof (descent_ratio_nonneg c s Hb H0 H1) as Hx0.
  pose proof (Zfloor_bound (descent_ratio c s)) as [Hfl Hfu].
  pose proof (Zfloor_lub 0 _ Hx0) as Hf0.
  pose proof (ln_scaling_neg s H0 H1) as Hlns.
  assert (Hx : descent_ratio c s * ln s = ln (blur c) - ln (effective_diameter c)).
  { unfold descent_ratio. field. lra. }
  rewrite length_make_blur_list.
  set (k := Z.to_nat (Zfloor (descent_ratio c s))).
  assert (Hk : Z.to_nat n = S (S k)) by (unfold k; lia).
  assert (HkR : INR k = IZR (Zfloor (descent_ratio c s))).
  { unfold k. rewrite INR_IZR_INZ, Z2Nat.id; [reflexivity|lia]. }
  rewrite Hk. cbv zeta.
  replace (S (S k) - 1)%nat with (S k) by lia.
  replace (S (S k) - 2)%nat with k by lia.
  rewrite (make_blur_list_ramp c s n Hs) by lra.
  split; [lia|]. split; [|split].
  - intros i Hlt. apply nth_error_map_arange. split; [lia|].
    rewrite (ramp_entry_closed_form c Hb s (Z.of_nat i) H0) by lia.
    rewrite Nat2Z.id. rewrite Rmax_left; [reflexivity|].
    rewrite <- (exp_ramp c s i Hb H0), <- (exp_ln (blur c) Hb).
    apply exp_monotone.
    assert (Hik : INR i <= INR k) by (apply le_INR; lia).
    nra.
  - apply nth_error_map_arange. split; [lia|].
    replace (Z.of_nat (S k)) with (np.floor (descent_ratio c s) + 2 - 1)%Z
      by (unfold np.floor, k; lia).
    now rewrite (ramp_entry_derived_last c Hb s H0 H1).
  - split.
    + rewrite <- (exp_ramp c s (S k) Hb H0), <- (exp_ln (blur c) Hb).
      apply exp_monotone. rewrite S_INR. nra.
    + rewrite <- (exp_ramp c s k Hb H0), <- (exp_ln (blur c) Hb) at 1.
      apply exp_monotone. nra.
Qed.

Lemma X9_derived_schedule_shape_witness :
  let n := length (dp_blur_list plan_tenfold) in
  (2 <= n)%nat /\
  (forall i, (i + 1 < n)%nat ->
             nth_error (dp_blur_list plan_tenfold) i =
             Some (dp_diameter plan_tenfold * (1/10) ^ i)) /\
  nth_error (dp_blur_list plan_tenfold) (n - 1) = Some (blur (cfg_tenfold None)) /\
  dp_diameter plan_tenfold * (1/10) ^ (n - 1) <= blur (cfg_tenfold None)
    <= dp_diameter plan_tenfold * (1/10) ^ (n - 2).
Proof.
  apply (X9_derived_schedule_shape (cfg_tenfold None) plan_tenfold (1/10)).
  - apply documented_domain_tenfold.
  - reflexivity.
  - reflexivity.
  - apply annealing_parameters_tenfold.
Defined.

Lemma geom_entry_closed_form (c : Config) (n : Z) (i : nat) :
  0 < blur c ->
  geom_entry c n (Z.of_nat i) = effective_diameter c * geom_ratio c n ^ i.
Proof.
  intros Hb. unfold geom_entry, geom_ratio, np.exp, np.log.
  rewrite <- exp_nat_mult, exp_plus.
  rewrite exp_ln by now apply effective_diameter_pos.
  rewrite IZR_of_nat. f_equal. f_equal. unfold Rdiv. ring.
Qed.

Lemma geom_ratio_range (c : Config) (n : Z) :
  0 < blur c -> (2 <= n)%Z -> 0 < geom_ratio c n <= 1.
Proof.
  intros Hb Hn. unfold geom_ratio. split; [apply exp_pos|].
  rewrite <- exp_0. apply exp_monotone.
  pose proof (ln_effective_diameter c Hb) as Hd.
  assert (Hpos : 0 < / IZR (n - 1)).
  { apply Rinv_0_lt_compat. apply IZR_lt. lia. }
  unfold Rdiv. nra.
Qed.

Lemma geom_ratio_power (c : Config) (n : Z) :
  0 < blur c -> (2 <= n)%Z ->
  effective_diameter c * geom_ratio c n ^ Z.to_nat (n - 1) = blur c.
Proof.
  intros Hb Hn. rewrite <- (geom_entry_closed_form c n _ Hb).
  rewrite Z2Nat.id by lia. now apply geom_entry_last.
Qed.

(** X10: when [scaling] is absent and [n_iter >= 2], the returned
    [blur_list] is a geometric sequence from the returned diameter down to
    [blur]: entry [i] is [diameter * r ** i] for one ratio [0 < r <= 1], with
    [diameter * r ** (n_iter - 1) == blur]. *)
Theorem X10_geometric_sequence (c : Config) (d : DescentParameters) (n : Z) :
  documented_domain c ->
  scaling c = None -> n_iter c = Some n -> n <> 1%Z ->
  annealing_parameters c = OK d ->
  0 < geom_ratio c n <= 1 /\
  dp_diameter d * geom_ratio c n ^ Z.to_nat (n - 1) = blur c /\
  length (dp_blur_list d) = Z.to_nat n /\
  forall (i : nat) (x : R),
    nth_error (dp_blur_list d) i = Some x ->
    x = dp_diameter d * geom_ratio c n ^ i.
Proof.
  intros [Hb _] Hs Hi Hne Hd.
  apply annealing_parameters_OK in Hd as [n' [Hc [Hn [_ ->]]]].
  assert (n' = n) as ->.
  { unfold effective_n_iter in Hn. rewrite Hi in Hn. now inversion Hn. }
  pose proof (effective_n_iter_positive c n Hb Hc Hn) as Hpos.
  unfold descent_of; cbn [dp_blur_list dp_diameter].
  split; [apply geom_ratio_range; [exact Hb|lia]|].
  split; [apply geom_ratio_power; [exact Hb|lia]|].
  split; [apply length_make_blur_list|].
  intros i x Hx. rewrite make_blur_list_geom in Hx by assumption.
  apply nth_error_map_arange in Hx as [_ ->].
  now apply geom_entry_closed_form.
Qed.

Lemma documented_domain_geom : documented_domain cfg_geom.
Proof. split; simpl; [lra|]. intros r Hr. inversion Hr. lra. Qed.

Lemma annealing_parameters_geom :
  annealing_parameters cfg_geom = OK (descent_of cfg_geom 3 []).
Proof.
  rewrite (annealing_parameters_steps cfg_geom 3 eq_refl eq_refl).
  now rewrite make_jumps_single_scale.
Qed.

Lemma X10_geometric_sequence_witness :
  0 < geom_ratio cfg_geom 3 <= 1 /\
  dp_diameter (descent_of cfg_geom 3 []) * geom_ratio cfg_geom 3 ^ Z.to_nat (3 - 1)
    = blur cfg_geom /\
  length (dp_blur_list (descent_of cfg_geom 3 [])) = Z.to_nat 3 /\
  forall (i : nat) (x : R),
    nth_error (dp_blur_list (descent_of cfg_geom 3 [])) i = Some x ->
    x = dp_diameter (descent_of cfg_geom 3 []) * geom_ratio cfg_geom 3 ^ i.
Proof.
  apply (X10_geometric_sequence cfg_geom (descent_of cfg_geom 3 []) 3).
  - apply documented_domain_geom.
  - reflexivity.
  - reflexivity.
  - lia.
  - apply annealing_parameters_geom.
Defined.

Lemma pow_float_pos (b : R) (e : Z) : 0 < b -> 0 < pow_float b e.
Proof. intros Hb. unfold pow_float. now apply powerRZ_lt. Qed.

Lemma pow_float_monotone (x y : R) (e : Z) :
  (0 <= e)%Z -> 0 < x -> x <= y -> pow_float x e <= pow_float y e.
Proof.
  intros He Hx Hxy. unfold pow_float.
  rewrite <- (Z2Nat.id e He), <- !pow_powerRZ.
  apply pow_incr. lra.
Qed.

(** X11: every entry of the returned [blur_list] and [eps_list] is positive,
    as are the returned diameter and the value in [rho_list] when a reach is
    given. *)
Theorem X11_positive_schedule (c : Config) (d : DescentParameters) :
  documented_domain c ->
  annealing_parameters c = OK d ->
  0 < dp_diameter d /\
  Forall (fun b => 0 < b) (dp_blur_list d) /\
  Forall (fun e => 0 < e) (dp_eps_list d) /\
  Forall (fun r => match r with
                   | Some v => 0 < v
                   | None => reach c = None
                   end) (dp_rho_list d).
Proof.
  intros [Hb Hr] Hd.
  apply annealing_parameters_OK in Hd as [n [Hc [Hn [_ ->]]]].
  unfold descent_of; cbn [dp_blur_list dp_diameter dp_eps_list dp_rho_list].
  pose proof (make_blur_list_ge_blur c Hb n) as Hge.
  assert (Hpos : Forall (fun b => 0 < b) (make_blur_list c n)).
  { eapply Forall_impl; [|exact Hge]. simpl. intros b Hle. lra. }
  split; [now apply effective_diameter_pos|].
  split; [exact Hpos|]. split.
  - unfold make_eps_list. rewrite Forall_map.
    eapply Forall_impl; [|exact Hpos]. intros b Hb0. now apply pow_float_pos.
  - unfold make_rho_list, make_rho. apply Forall_forall. intros r Hin.
    apply repeat_spec in Hin. subst r.
    destruct (reach c) as [r|] eqn:Er; [|reflexivity].
    apply pow_float_pos. now apply Hr.
Qed.

Lemma X11_positive_schedule_witness :
  0 < dp_diameter plan_constant /\
  Forall (fun b => 0 < b) (dp_blur_list plan_constant) /\
  Forall (fun e => 0 < e) (dp_eps_list plan_constant) /\
  Forall (fun r => match r with
                   | Some v => 0 < v
                   | None => reach (cfg_constant None) = None
                   end) (dp_rho_list plan_constant).
Proof.
  apply (X11_positive_schedule (cfg_constant None) plan_constant).
  - apply documented_domain_constant.
  - apply annealing_parameters_constant.
Defined.

Lemma map_non_increasing (f : R -> R) (l : list R) :
  (forall x y, In x l -> In y l -> y <= x -> f y <= f x) ->
  non_increasing l -> non_increasing (map f l).
Proof.
  intros Hf Hl i j a b Hij Ha Hb.
  rewrite nth_error_map in Ha, Hb.
  destruct (nth_error l i) as [x|] eqn:Ex; [|discriminate].
  destruct (nth_error l j) as [y|] eqn:Ey; [|discriminate].
  simpl in Ha, Hb. inversion Ha; inversion Hb; subst.
  apply Hf; [eapply nth_error_In; eassumption..|].
  exact (Hl i j x y Hij Ex Ey).
Qed.

(** X12: for an exponent [p >= 0] the temperatures follow the blur scales:
    the returned [eps_list] is non-strictly decreasing and every entry lies
    between [blur ** p] and [diameter ** p] (the returned diameter). *)
Theorem X12_eps_list_descent (c : Config) (d : DescentParameters) :
  documented_domain c ->
  (0 <= p c)%Z ->
  annealing_parameters c = OK d ->
  non_increasing (dp_eps_list d) /\
  Forall (fun e => pow_float (blur c) (p c) <= e <= pow_float (dp_diameter d) (p c))
         (dp_eps_list d).
Proof.
  intros [Hb _] Hp Hd.
  apply annealing_parameters_OK in Hd as [n [Hc [Hn [_ ->]]]].
  pose proof (effective_n_iter_positive c n Hb Hc Hn) as Hpos.
  unfold descent_of; cbn [dp_blur_list dp_diameter dp_eps_list].
  pose proof (make_blur_list_ge_blur c Hb n) as Hge.
  assert (Hs : forall s, scaling c = Some s -> 0 < s <= 1).
  { intros s Hs. exact (checked_scaling_range c s Hc Hs). }
  pose proof (make_blur_list_le_diameter c n Hb Hpos Hs) as Hle.
  rewrite Forall_forall in Hge, Hle.
  unfold make_eps_list. split.
  - apply map_non_increasing.
    + intros x y Hx Hy Hyx. apply pow_float_monotone; [exact Hp| |exact Hyx].
      specialize (Hge y Hy). simpl in Hge. lra.
    + now apply make_blur_list_non_increasing.
  - rewrite Forall_map. apply Forall_forall. intros b Hin.
    specialize (Hge b Hin). specialize (Hle b Hin). simpl in Hge, Hle.
    split; apply pow_float_monotone; try assumption. lra.
Qed.

Lemma X12_eps_list_descent_witness :
  non_increasing (dp_eps_list plan_tenfold) /\
  Forall (fun e => pow_float (blur (cfg_tenfold None)) (p (cfg_tenfold None)) <= e
                   <= pow_float (dp_diameter plan_tenfold) (p (cfg_tenfold None)))
         (dp_eps_list plan_tenfold).
Proof.
  apply (X12_eps_list_descent (cfg_tenfold None) plan_tenfold).
  - apply documented_domain_tenfold.
  - simpl; lia.
  - apply annealing_parameters_tenfold.
Defined.

(** X13: the argument checks run in a fixed order and before anything else,
    so each rejected case has its own message whatever the other arguments
    are: a non-positive [n_iter] first, then a [scaling] outside [(0, 1]],
    then the absence of both, then [scaling == 1] without [n_iter]. *)
Theorem X13_argument_errors_in_order (c : Config) :
  (n_iter_not_positive c ->
   annealing_parameters c = Raise (ValueError NIterShouldBePositive)) /\
  (~ n_iter_not_positive c -> scaling_out_of_range c ->
   annealing_parameters c = Raise (ValueError ScalingShouldBeInUnitRange)) /\
  (schedule_unspecified c ->
   annealing_parameters c = Raise (ValueError PleaseSpecifyNIterOrScaling)) /\
  (constant_scaling_without_n_iter c ->
   annealing_parameters c = Raise (ValueError ConstantScalingNeedsNIter)).
Proof.
  unfold annealing_parameters, check_arguments, raise_if.
  split; [|split; [|split]].
  - intros [n [Hn Hle]]. rewrite Hn.
    apply Z.leb_le in Hle. now rewrite Hle.
  - intros Hnot [s [Hs Hout]]. rewrite Hs.
    assert (Hfirst : match n_iter c with
                     | Some n => (n <=? 0)%Z
                     | None => false
                     end = false).
    { destruct (n_iter c) as [n|] eqn:En; [|reflexivity].
      apply Z.leb_gt. destruct (Z.le_gt_cases n 0); [|lia].
      exfalso. apply Hnot. exists n. now split. }
    rewrite Hfirst. simpl.
    destruct Hout as [Hout|Hout].
    + apply Rleb_true in Hout. now rewrite Hout.
    + apply Rgtb_true in Hout. rewrite Hout, orb_true_r. reflexivity.
  - intros [Hn Hs]. now rewrite Hn, Hs.
  - intros [Hn Hs]. rewrite Hn, Hs. simpl.
    unfold Rgtb. float_tests. simpl.
    unfold effective_n_iter, scaling_is_one. rewrite Hn, Hs.
    now rewrite (proj2 (Req_b_true 1 1) eq_refl).
Qed.

Lemma X13_argument_errors_in_order_witness :
  annealing_parameters cfg_unspecified =
  Raise (ValueError PleaseSpecifyNIterOrScaling).
Proof.
  apply (proj1 (proj2 (proj2 (X13_argument_errors_in_order cfg_unspecified)))).
  split; reflexivity.
Defined.

(** X14: a list of fewer than two scales is treated like no list at all:
    the result is that of the same call with [scales=None]. *)
Theorem X14_single_scale_ignores_scales (c : Config) (sc : list R) :
  (length sc < 2)%nat ->
  annealing_parameters (with_scales c (Some sc)) =
  annealing_parameters (with_scales c None).
Proof.
  intros Hlen. unfold annealing_parameters.
  change (check_arguments (with_scales c (Some sc)))
    with (check_arguments (with_scales c None)).
  destruct (check_arguments (with_scales c None)) as [[]|e]; [|reflexivity].
  change (effective_n_iter (with_scales c (Some sc)))
    with (effective_n_iter (with_scales c None)).
  simpl bind.
  destruct (effective_n_iter (with_scales c None)) as [n|e]; [|reflexivity].
  simpl bind.
  rewrite (make_jumps_single_scale (with_scales c (Some sc)))
    by (simpl; now apply Nat.ltb_lt).
  reflexivity.
Qed.

Lemma X14_single_scale_ignores_scales_witness :
  annealing_parameters (with_scales (cfg_tenfold None) (Some [1/2])) =
  annealing_parameters (with_scales (cfg_tenfold None) None).
Proof.
  apply (X14_single_scale_ignores_scales (cfg_tenfold None) [1/2]).
  simpl; lia.
Defined.

(** ** The scan loop, entered with [jumps] bound *)

Lemma scan_jumps_bound_invariant (sc : list R) :
  forall (blurs : list R) (i : Z) (k : nat) (js : list Z)
         (k' : nat) (jumps' : option (list Z)),
    (k <= length sc)%nat ->
    scan_jumps sc blurs i k (Some js) = OK (k', jumps') ->
    exists new : list Z,
      jumps' = Some (js ++ new) /\
      k' = (k + length new)%nat /\
      (k' <= length sc)%nat /\
      StronglySorted Z.lt new /\
      Forall (fun j => (i <= j < i + Z.of_nat (length blurs))%Z) new.
Proof.
  induction blurs as [|b rest IH]; intros i k js k' jumps' Hk H;
    cbn [scan_jumps] in H.
  - inversion H; subst. exists []. rewrite app_nil_r.
    repeat split; try constructor; simpl; lia.
  - destruct (nth_error sc k) as [s_k|] eqn:Ek; [|discriminate].
    assert (Hlt : (k < length sc)%nat) by (apply nth_error_Some; congruence).
    revert H. destruct (Rltb b s_k); intros H.
    + revert H. destruct (Nat.leb_spec (length sc) (S k)) as [Hend|Hmore]; intros H.
      * inversion H; subst. exists [i].
        repeat split; simpl; try lia.
        -- repeat constructor.
        -- constructor; [lia|constructor].
      * revert H. destruct (nth_error sc (S k)) as [s_k'|]; [|discriminate].
        destruct (Rltb b s_k'); [discriminate|]. intros H.
        apply IH in H as [new [-> [-> [Hle [Hsort Hrange]]]]]; [|lia].
        exists (i :: new). rewrite <- app_assoc. simpl.
        repeat split; try lia.
        -- constructor; [exact Hsort|].
           eapply Forall_impl; [|exact Hrange]. simpl. intros j Hj. lia.
        -- constructor; [lia|].
           eapply Forall_impl; [|exact Hrange]. simpl. intros j Hj. lia.
    + apply IH in H as [new [-> [-> [Hle [Hsort Hrange]]]]]; [|exact Hk].
      exists new. repeat split; try assumption; try lia.
      eapply Forall_impl; [|exact Hrange]. simpl. intros j Hj. lia.
Qed.

(** X15: the scan loop of the multiscale branch, entered with [jumps] bound
    to a list, appends one index per advance of the scale pointer [k]: when
    it ends without raising, [jumps] has grown by [k] strictly increasing
    indices of [blur_list[1:]], and [k] does not exceed [len(scales)].  The
    check [k < len(scales)] after the loop then lets only [k == len(scales)]
    through, that is [len(scales)] new jumps. *)
Theorem X15_scan_appends_increasing_indices
        (sc blurs : list R) (js : list Z) (k' : nat) (jumps' : option (list Z)) :
  scan_jumps sc blurs 0 0 (Some js) = OK (k', jumps') ->
  exists new : list Z,
    jumps' = Some (js ++ new) /\
    length new = k' /\ (k' <= length sc)%nat /\
    StronglySorted Z.lt new /\
    Forall (fun j => (0 <= j < Z.of_nat (length blurs))%Z) new /\
    ((k' <? length sc)%nat = false -> length new = length sc).
Proof.
  intros H.
  apply scan_jumps_bound_invariant in H as [new [-> [-> [Hle [Hs Hr]]]]]; [|lia].
  exists new. repeat split; try assumption; try lia.
  intros Hge. apply Nat.ltb_ge in Hge. simpl in *. lia.
Qed.

Lemma X15_scan_appends_increasing_indices_witness :
  exists new : list Z,
    Some [0%Z; 1%Z] = Some ([] ++ new) /\
    length new = 2%nat /\ (2 <= length [1/2; 1/20])%nat /\
    StronglySorted Z.lt new /\
    Forall (fun j => (0 <= j < Z.of_nat (length [1/10; 1/100; 1/100]))%Z) new /\
    ((2 <? length [1/2; 1/20])%nat = false -> length new = length [1/2; 1/20]).
Proof.
  apply (X15_scan_appends_increasing_indices
           [1/2; 1/20] [1/10; 1/100; 1/100] [] 2 (Some [0%Z; 1%Z])).
  simpl. float_tests. simpl. float_tests. simpl. float_tests. reflexivity.
Defined.

(** ** Further properties of the dual scaling rule *)

(** X16: [forward] and [backward] are linear in their argument; their
    results differ by [eps/2] times the argument, so they agree exactly
    when [eps == 0] or the argument is zero. *)
Theorem X16_dual_scaling_linear_gap (w : UnbalancedWeight.t) (x y a : R) :
  UnbalancedWeight.forward w (a * x + y) =
    a * UnbalancedWeight.forward w x + UnbalancedWeight.forward w y /\
  UnbalancedWeight.backward w (a * x + y) =
    a * UnbalancedWeight.backward w x + UnbalancedWeight.backward w y /\
  UnbalancedWeight.backward w x - UnbalancedWeight.forward w x =
    UnbalancedWeight.eps w / 2 * x /\
  (UnbalancedWeight.forward w x = UnbalancedWeight.backward w x <->
   UnbalancedWeight.eps w = 0 \/ x = 0).
Proof.
  unfold UnbalancedWeight.forward, UnbalancedWeight.backward.
  repeat split; try (ring || field).
  - intros H.
    assert (Hz : UnbalancedWeight.eps w * x = 0) by lra.
    apply Rmult_integral in Hz. exact Hz.
  - intros [H|H]; rewrite H; (ring || field).
Qed.

(** ** How the derived number of iterations varies *)

Lemma derived_schedule_returns (c : Config) (s : R) :
  n_iter c = None -> scaling c = Some s -> 0 < s < 1 ->
  single_scale c = true ->
  annealing_parameters c =
  OK (descent_of c (Zfloor (descent_ratio c s) + 2) []).
Proof.
  intros Hi Hs [H0 H1] Hsingle.
  assert (Hv : ~ invalid_arguments c).
  { intros [[k [Hk _]]|[[s' [Hs' Hr]]|[[_ Hn']|[_ Hn']]]]; try congruence.
    - rewrite Hs in Hs'. inversion Hs'; subst. lra.
    - rewrite Hs in Hn'. inversion Hn'. lra. }
  destruct (annealing_parameters_returns c Hv Hsingle) as [n [Hn Hd]].
  rewrite Hd. unfold effective_n_iter, scaling_is_one in Hn.
  rewrite Hi, Hs in Hn. rewrite (proj2 (Req_b_false s 1)) in Hn by lra.
  inversion Hn. reflexivity.
Qed.

Lemma log_gap_monotone (d b b' : R) :
  0 < b -> b <= b' ->
  ln b - ln (Rmax d b) <= ln b' - ln (Rmax d b').
Proof.
  intros Hb Hbb.
  assert (Hln : ln b <= ln b').
  { destruct Hbb as [Hlt|Heq]; [left; now apply ln_increasing|rewrite Heq; lra]. }
  destruct (Rle_dec b' d) as [Hle|Hgt].
  - rewrite !Rmax_left by lra. lra.
  - rewrite (Rmax_right d b') by lra.
    assert (Hm : ln b <= ln (Rmax d b)).
    { destruct (Rle_lt_or_eq_dec _ _ (Rmax_r d b)) as [Hlt|Heq].
      - left. now apply ln_increasing.
      - rewrite <- Heq. lra. }
    lra.
Qed.

(** X17: with [n_iter] derived from [scaling], aiming at a larger [blur]
    never takes more iterations: the returned lists for the larger target
    are at most as long as those for the smaller one. *)
Theorem X17_smaller_blur_more_iterations (c : Config) (s b' : R) :
  documented_domain c ->
  n_iter c = None -> scaling c = Some s -> 0 < s < 1 ->
  single_scale c = true ->
  blur c <= b' ->
  exists d d' : DescentParameters,
    annealing_parameters c = OK d /\
    annealing_parameters (with_blur c b') = OK d' /\
    (length (dp_blur_list d') <= length (dp_blur_list d))%nat.
Proof.
  intros [Hb _] Hi Hs Hr Hsingle Hbb.
  exists (descent_of c (Zfloor (descent_ratio c s) + 2) []),
         (descent_of (with_blur c b') (Zfloor (descent_ratio (with_blur c b') s) + 2) []).
  split; [now apply derived_schedule_returns|].
  split; [now apply derived_schedule_returns|].
  unfold descent_of; cbn [dp_blur_list]. rewrite !length_make_blur_list.
  apply Z2Nat.inj_le.
  - pose proof (Zfloor_lub 0 (descent_ratio (with_blur c b') s)) as Hf.
    assert (0 <= descent_ratio (with_blur c b') s).
    { apply descent_ratio_nonneg; simpl; lra. }
    specialize (Hf ltac:(simpl; lra)). lia.
  - pose proof (Zfloor_lub 0 (descent_ratio c s)
                           (descent_ratio_nonneg c s Hb (proj1 Hr) (proj2 Hr))). lia.
  - apply Z.add_le_mono_r. apply Zfloor_le.
    unfold descent_ratio, effective_diameter. simpl.
    pose proof (log_gap_monotone (diameter c) (blur c) b' Hb Hbb) as Hgap.
    pose proof (ln_scaling_neg s (proj1 Hr) (proj2 Hr)) as Hlns.
    unfold Rdiv.
    assert (Hinv : / ln s < 0) by now apply Rinv_lt_0_compat.
    nra.
Qed.

Lemma X17_smaller_blur_more_iterations_witness :
  exists d d' : DescentParameters,
    annealing_parameters (cfg_tenfold None) = OK d /\
    annealing_parameters (with_blur (cfg_tenfold None) (1/10)) = OK d' /\
    (length (dp_blur_list d') <= length (dp_blur_list d))%nat.
Proof.
  apply (X17_smaller_blur_more_iterations (cfg_tenfold None) (1/10) (1/10)).
  - apply documented_domain_tenfold.
  - reflexivity.
  - reflexivity.
  - lra.
  - reflexivity.
  - simpl; lra.
Defined.

(** X18: with [n_iter] derived from [scaling], a scaling closer to 1 never
    takes fewer iterations: the returned lists for the larger ratio are at
    least as long as those for the smaller one. *)
Theorem X18_slower_scaling_more_iterations (c : Config) (s s' : R) :
  documented_domain c ->
  n_iter c = None -> scaling c = Some s ->
  0 < s -> s <= s' -> s' < 1 ->
  single_scale c = true ->
  exists d d' : DescentParameters,
    annealing_parameters c = OK d /\
    annealing_parameters (with_scaling c (Some s')) = OK d' /\
    (length (dp_blur_list d) <= length (dp_blur_list d'))%nat.
Proof.
  intros [Hb _] Hi Hs H0 Hss H1 Hsingle.
  exists (descent_of c (Zfloor (descent_ratio c s) + 2) []),
         (descent_of (with_scaling c (Some s'))
                     (Zfloor (descent_ratio (with_scaling c (Some s')) s') + 2) []).
  split; [apply derived_schedule_returns; try assumption; lra|].
  split; [apply derived_schedule_returns; try assumption; simpl; (reflexivity || lra)|].
  unfold descent_of; cbn [dp_blur_list]. rewrite !length_make_blur_list.
  assert (Hx : 0 <= descent_ratio c s)
    by (apply descent_ratio_nonneg; lra).
  assert (Hx' : 0 <= descent_ratio (with_scaling c (Some s')) s')
    by (apply descent_ratio_nonneg; simpl; lra).
  apply Z2Nat.inj_le.
  - pose proof (Zfloor_lub 0 _ Hx). lia.
  - pose proof (Zfloor_lub 0 _ Hx'). lia.
  - apply Z.add_le_mono_r. apply Zfloor_le.
    unfold descent_ratio, effective_diameter. simpl.
    pose proof (ln_effective_diameter c Hb) as Hgap.
    unfold effective_diameter in Hgap.
    assert (Hlns : ln s < 0) by (apply ln_scaling_neg; lra).
    assert (Hlns' : ln s' < 0) by (apply ln_scaling_neg; lra).
    assert (Hmono : ln s <= ln s').
    { destruct Hss as [Hlt|Heq]; [left; now apply ln_increasing|rewrite Heq; lra]. }
    set (N := ln (blur c) - ln (Rmax (diameter c) (blur c))) in *.
    assert (HN : N <= 0) by (unfold N; lra).
    apply Rmult_le_reg_r with (- ln s); [lra|].
    apply Rmult_le_reg_r with (- ln s'); [lra|].
    replace (N / ln s * - ln s * - ln s') with (N * ln s') by (field; lra).
    replace (N / ln s' * - ln s * - ln s') with (N * ln s) by (field; lra).
    nra.
Qed.

Lemma X18_slower_scaling_more_iterations_witness :
  exists d d' : DescentParameters,
    annealing_parameters (cfg_tenfold None) = OK d /\
    annealing_parameters (with_scaling (cfg_tenfold None) (Some (1/2))) = OK d' /\
    (length (dp_blur_list d) <= length (dp_blur_list d'))%nat.
Proof.
  apply (X18_slower_scaling_more_iterations (cfg_tenfold None) (1/10) (1/2)).
  - apply documented_domain_tenfold.
  - reflexivity.
  - reflexivity.
  - lra.
  - lra.
  - lra.
  - reflexivity.
Defined.

(** ** When a plan is returned *)

(** X19: on the documented domain a plan is returned exactly when the
    arguments pass the four checks and the call is in single-scale mode; the
    returned [jumps] is then the empty list. *)
Theorem X19_plan_returned_iff (c : Config) :
  documented_domain c ->
  ((exists d, annealing_parameters c = OK d) <->
   ~ invalid_arguments c /\ single_scale c = true) /\
  (forall d, annealing_parameters c = OK d -> dp_jumps d = []).
Proof.
  intros _. split.
  - split.
    + intros [d Hd]. split; [exact (returned_implies_valid c d Hd)|].
      now apply annealing_parameters_OK in Hd as [n [_ [_ [Hs _]]]].
    + intros [Hv Hs].
      destruct (annealing_parameters_returns c Hv Hs) as [n [_ Hd]]. eauto.
  - intros d Hd. now apply annealing_parameters_OK in Hd as [n [_ [_ [_ ->]]]].
Qed.

Lemma X19_plan_returned_iff_witness :
  ((exists d, annealing_parameters (cfg_constant None) = OK d) <->
   ~ invalid_arguments (cfg_constant None) /\ single_scale (cfg_constant None) = true) /\
  (forall d, annealing_parameters (cfg_constant None) = OK d -> dp_jumps d = []).
Proof.
  apply (X19_plan_returned_iff (cfg_constant None)).
  apply documented_domain_constant.
Defined.

(** X20: plain Sinkhorn.  With [scaling == 1] and [n_iter = n >= 1] in
    single-scale mode, the call returns [n] copies of [blur], of [blur ** p]
    and of the rho value, whatever the diameter, which only shows in the
    returned [diameter]. *)
Theorem X20_constant_schedule (c : Config) (n : Z) :
  documented_domain c ->
  scaling c = Some 1 -> n_iter c = Some n -> (1 <= n)%Z ->
  single_scale c = true ->
  annealing_parameters c =
  OK {| dp_diameter := Rmax (diameter c) (blur c);
        dp_jumps := [];
        dp_eps_list := repeat (pow_float (blur c) (p c)) (Z.to_nat n);
        dp_blur_list := repeat (blur c) (Z.to_nat n);
        dp_rho_list := repeat (make_rho c) (Z.to_nat n) |}.
Proof.
  intros _ Hs Hi Hn Hsingle.
  assert (Hv : ~ invalid_arguments c).
  { intros [[k [Hk Hle]]|[[s' [Hs' Hr]]|[[Hn' _]|[Hn' _]]]]; try congruence.
    - rewrite Hi in Hk. inversion Hk; subst. lia.
    - rewrite Hs in Hs'. inversion Hs'; subst. lra. }
  destruct (annealing_parameters_returns c Hv Hsingle) as [n' [Hn' Hd]].
  unfold effective_n_iter in Hn'. rewrite Hi in Hn'. inversion Hn'; subst n'.
  rewrite Hd. unfold descent_of, make_eps_list, make_rho_list.
  rewrite (make_blur_list_constant c n Hs), repeat_length, map_repeat.
  reflexivity.
Qed.

Lemma X20_constant_schedule_witness :
  annealing_parameters (cfg_constant None) =
  OK {| dp_diameter := Rmax (diameter (cfg_constant None)) (blur (cfg_constant None));
        dp_jumps := [];
        dp_eps_list := repeat (pow_float (blur (cfg_constant None))
                                         (p (cfg_constant None))) (Z.to_nat 3);
        dp_blur_list := repeat (blur (cfg_constant None)) (Z.to_nat 3);
        dp_rho_list := repeat (make_rho (cfg_constant None)) (Z.to_nat 3) |}.
Proof.
  apply (X20_constant_schedule (cfg_constant None) 3).
  - apply documented_domain_constant.
  - reflexivity.
  - reflexivity.
  - lia.
  - reflexivity.
Defined.

(** X21: when both [n_iter] and [scaling < 1] are given, asking for at
    least as many iterations as would be derived from [scaling] alone is
    enough for the returned [blur_list] to end at [blur]. *)
Theorem X21_enough_iterations_reach_blur
        (c : Config) (d : DescentParameters) (n : Z) (s : R) :
  documented_domain c ->
  n_iter c = Some n -> scaling c = Some s -> s < 1 ->
  (Zfloor (descent_ratio c s) + 2 <= n)%Z ->
  annealing_parameters c = OK d ->
  last_entry (dp_blur_list d) = Some (blur c).
Proof.
  intros [Hb _] Hi Hs H1 Hge Hd.
  apply annealing_parameters_OK in Hd as [n' [Hc [Hn [_ ->]]]].
  assert (n' = n) as ->.
  { unfold effective_n_iter in Hn. rewrite Hi in Hn. now inversion Hn. }
  pose proof (effective_n_iter_positive c n Hb Hc Hn) as Hpos.
  destruct (checked_scaling_range c s Hc Hs) as [H0 _].
  unfold descent_of; cbn [dp_blur_list].
  rewrite (make_blur_list_ramp c s n Hs) by lra.
  rewrite last_entry_map_arange by exact Hpos.
  f_equal. apply ramp_entry_floor; [exact Hb|].
  pose proof (ln_scaling_neg s H0 H1) as Hlns.
  pose proof (Zfloor_bound (descent_ratio c s)) as [_ Hup].
  assert (Hx : descent_ratio c s * ln s = ln (blur c) - ln (effective_diameter c)).
  { unfold descent_ratio. field. lra. }
  assert (HR : IZR (Zfloor (descent_ratio c s)) + 1 <= IZR (n - 1)).
  { rewrite <- (plus_IZR _ 1). apply IZR_le. lia. }
  unfold np.log. nra.
Qed.

Lemma X21_enough_iterations_reach_blur_witness :
  last_entry (dp_blur_list (descent_of (with_blur cfg_short 1) 2 [])) =
  Some (blur (with_blur cfg_short 1)).
Proof.
  apply (X21_enough_iterations_reach_blur (with_blur cfg_short 1) _ 2 (1/2)).
  - split; simpl; [lra|discriminate].
  - reflexivity.
  - reflexivity.
  - lra.
  - unfold descent_ratio, effective_diameter. simpl.
    rewrite Rmax_left by lra. rewrite ln_1.
    assert (Hneg : ln (1/2) < 0) by (apply ln_scaling_neg; lra).
    replace ((0 - 0) / ln (1/2)) with 0 by (field; lra).
    rewrite (Zfloor_eq 0 0) by lra. lia.
  - rewrite (annealing_parameters_steps (with_blur cfg_short 1) 2
               check_arguments_short eq_refl).
    now rewrite make_jumps_single_scale.
Defined.

(** ** The tractogram example: what subsampling keeps *)

Lemma range_from_In (step : Z) (count : nat) :
  (0 < step)%Z ->
  forall (start x : Z),
    In x (tractogram.range_from start step count) <->
    exists k : nat, (k < count)%nat /\ x = (start + Z.of_nat k * step)%Z.
Proof.
  intros Hstep. induction count as [|count IH]; intros start x; simpl.
  - split; [intros []|intros [k [Hk _]]; lia].
  - rewrite IH. split.
    + intros [<-|[k [Hk ->]]].
      * exists 0%nat. split; [lia|]. simpl. lia.
      * exists (S k). split; [lia|]. lia.
    + intros [[|k] [Hk ->]].
      * left. simpl. lia.
      * right. exists k. split; [lia|]. lia.
Qed.

(** The elements of [range(start, stop, step)]. *)
Lemma py_range_In (start stop step x : Z) :
  (0 < step)%Z ->
  In x (tractogram.py_range start stop step) <->
  (start <= x < stop)%Z /\ ((x - start) mod step = 0)%Z.
Proof.
  intros Hstep. unfold tractogram.py_range. rewrite range_from_In by exact Hstep.
  set (q := ((stop - start + step - 1) / step)%Z).
  assert (Hq : (step * q <= stop - start + step - 1 < step * (q + 1))%Z).
  { unfold q. pose proof (Z.mul_div_le (stop - start + step - 1) step Hstep).
    pose proof (Z.mul_succ_div_gt (stop - start + step - 1) step Hstep).
    lia. }
  split.
  - intros [k [Hk ->]]. split.
    + assert (Z.of_nat k < q)%Z by lia. nia.
    + replace (start + Z.of_nat k * step - start)%Z with (Z.of_nat k * step)%Z by lia.
      apply Z.mod_mul. lia.
  - intros [[Hlo Hhi] Hmod].
    apply Z.mod_divide in Hmod; [|lia]. destruct Hmod as [m Hm].
    assert (0 <= m)%Z by nia.
    exists (Z.to_nat m). split; [|lia].
    assert (m < q)%Z by nia. lia.
Qed.

Lemma to_keep_acc (ranges_j : list (Z * Z)) (acc : list Z) (x : Z) :
  In x (fold_left (fun acc r =>
                     acc ++ tractogram.py_range (fst r) (snd r) tractogram.subsample)
                  ranges_j acc) <->
  In x acc \/
  exists r, In r ranges_j /\
            In x (tractogram.py_range (fst r) (snd r) tractogram.subsample).
Proof.
  revert acc. induction ranges_j as [|r rest IH]; intros acc; simpl.
  - split; [auto|intros [H|[r [[] _]]]; exact H].
  - rewrite IH, in_app_iff. split.
    + intros [[H|H]|[r' [Hr' H]]]; eauto.
    + intros [H|[r' [[<-|Hr'] H]]]; eauto.
Qed.

Lemma first_empty_cluster_None (ranges_j : list (Z * Z)) (j : nat) :
  tractogram.first_empty_cluster ranges_j j = None <->
  forall r, In r ranges_j -> (fst r < snd r)%Z.
Proof.
  revert j. induction ranges_j as [|[s e] rest IH]; intros j; simpl.
  - split; [intros _ r []|reflexivity].
  - destruct (Z.geb_spec s e) as [Hge|Hlt].
    + split; [discriminate|]. intros H. specialize (H (s, e) (or_introl eq_refl)).
      simpl in H. lia.
    + rewrite IH. split.
      * intros H r [<-|Hr]; [exact Hlt|now apply H].
      * intros H r Hr. apply H. now right.
Qed.

(** X22: the check of lines 143-145 passes exactly when every cluster range
    has [start < end]; the fibers then kept by the subsampling are the indices
    lying in some cluster at a multiple of 20 from its start, so every cluster
    keeps at least its first fiber and nothing outside the clusters is
    kept. *)
Theorem X22_subsampling_keeps_every_cluster (ranges_j : list (Z * Z)) :
  (tractogram.first_empty_cluster ranges_j 0 = None <->
   forall r, In r ranges_j -> (fst r < snd r)%Z) /\
  (forall x, In x (tractogram.to_keep ranges_j) <->
             exists r, In r ranges_j /\ (fst r <= x < snd r)%Z /\
                       ((x - fst r) mod 20 = 0)%Z) /\
  (tractogram.first_empty_cluster ranges_j 0 = None ->
   forall r, In r ranges_j -> In (fst r) (tractogram.to_keep ranges_j)).
Proof.
  assert (Hkeep : forall x, In x (tractogram.to_keep ranges_j) <->
             exists r, In r ranges_j /\ (fst r <= x < snd r)%Z /\
                       ((x - fst r) mod 20 = 0)%Z).
  { intros x. unfold tractogram.to_keep. rewrite to_keep_acc. split.
    - intros [[]|[r [Hr Hx]]]. exists r. split; [exact Hr|].
      apply py_range_In in Hx; [exact Hx|reflexivity].
    - intros [r [Hr Hx]]. right. exists r. split; [exact Hr|].
      apply py_range_In; [reflexivity|exact Hx]. }
  split; [apply first_empty_cluster_None|]. split; [exact Hkeep|].
  intros Hcheck r Hr. apply Hkeep. exists r. split; [exact Hr|].
  pose proof (proj1 (first_empty_cluster_None ranges_j 0) Hcheck r Hr).
  split; [lia|]. now rewrite Z.sub_diag.
Qed.

Lemma X22_subsampling_keeps_every_cluster_witness :
  In (fst (45, 50)%Z) (tractogram.to_keep [(0, 45); (45, 50)]%Z).
Proof.
  apply (proj2 (proj2 (X22_subsampling_keeps_every_cluster [(0, 45); (45, 50)]%Z))).
  - reflexivity.
  - simpl; auto.
Defined.
